(** * protoc-gen-doc: the descriptor → documentation-model transformation

    A shallow embedding of [template.go] (package [gendoc]) and the
    properties of its documentation model.

    Go strings are byte sequences; they are modelled by Rocq's [string]
    (a sequence of 8-bit [ascii] values).  Go maps with string keys are
    stdpp's [gmap string _]; a [nil] map or slice, where the program
    distinguishes it from an empty one, is [None]. A run-time panic is
    the [None] of the [option] monad. *)

From Stdlib Require Import String Ascii ZArith List Lia Permutation Sorted.
From Stdlib Require Import DecimalString OrdersEx.
From stdpp Require Import base option gmap strings list fin_maps sorting.

Local Open Scope string_scope.
Local Open Scope Z_scope.
Local Open Scope list_scope.

(** ** Go's [strings] package, as far as [template.go] calls it *)

Module strings.

(** [s[n:]] and [s[:n]]; every slice expression of the program is in
    range. *)
Fixpoint drop (n : nat) (s : string) : string :=
  match n, s with
  | O, _ => s
  | S _, "" => ""
  | S k, String _ s' => drop k s'
  end.

Fixpoint take (n : nat) (s : string) : string :=
  match n, s with
  | O, _ => ""
  | S _, "" => ""
  | S k, String c s' => String c (take k s')
  end.

Fixpoint rev (s : string) : string :=
  match s with
  | "" => ""
  | String c s' => rev s' +:+ String c ""
  end.

Fixpoint HasPrefix (s prefix : string) : bool :=
  match prefix, s with
  | "", _ => true
  | String _ _, "" => false
  | String p prefix', String c s' => Ascii.eqb c p && HasPrefix s' prefix'
  end.

Definition HasSuffix (s suffix : string) : bool :=
  HasPrefix (rev s) (rev suffix).

Definition TrimPrefix (s prefix : string) : string :=
  if HasPrefix s prefix then drop (String.length prefix) s else s.

(** Byte offset of the first occurrence of [substr], [-1] when there
    is none. *)
Fixpoint Index (s substr : string) {struct s} : Z :=
  if HasPrefix s substr then 0
  else match s with
       | "" => -1
       | String _ s' =>
           let i := Index s' substr in
           if i <? 0 then -1 else i + 1
       end.

Definition Contains (s substr : string) : bool := 0 <=? Index s substr.

Fixpoint mem (c : ascii) (cutset : string) : bool :=
  match cutset with
  | "" => false
  | String d cutset' => Ascii.eqb c d || mem c cutset'
  end.

(** [TrimLeft] for an ASCII cutset (the program's is ["*/\n "]), which
    Go trims byte by byte. *)
Fixpoint TrimLeft (s cutset : string) : string :=
  match s with
  | "" => ""
  | String c s' => if mem c cutset then TrimLeft s' cutset else s
  end.

(** [ReplaceAll] for a non-empty [old], the only way the program calls
    it: occurrences are replaced left to right without overlap. [skip]
    counts the bytes of a replaced occurrence still to be passed. *)
Fixpoint replace_go (old new : string) (skip : nat) (s : string) : string :=
  match s with
  | "" => ""
  | String c s' =>
      match skip with
      | S k => replace_go old new k s'
      | O =>
          if HasPrefix s old
          then new +:+ replace_go old new (String.length old - 1) s'
          else String c (replace_go old new 0 s')
      end
  end.

Definition ReplaceAll (s old new : string) : string :=
  replace_go old new 0 s.

(** [Split] for a non-empty separator. [cur] is the part being read. *)
Fixpoint split_go (sep : string) (skip : nat) (cur s : string) : list string :=
  match s with
  | "" => [cur]
  | String c s' =>
      match skip with
      | S k => split_go sep k cur s'
      | O =>
          if HasPrefix s sep
          then cur :: split_go sep (String.length sep - 1) "" s'
          else split_go sep 0 (cur +:+ String c "") s'
      end
  end.

Definition Split (s sep : string) : list string := split_go sep 0 "" s.

(** [ToLower] on ASCII text; the program lowers only the names of
    descriptor enum constants. *)
Definition lowerByte (c : ascii) : ascii :=
  let n := nat_of_ascii c in
  if ((65 <=? n) && (n <=? 90))%nat then ascii_of_nat (n + 32) else c.

Fixpoint ToLower (s : string) : string :=
  match s with
  | "" => ""
  | String c s' => String (lowerByte c) (ToLower s')
  end.

(** [TrimSpace] removes leading and trailing Unicode white space:
    U+0009..U+000D, U+0020, U+0085, U+00A0, U+1680, U+2000..U+200A,
    U+2028, U+2029, U+202F, U+205F and U+3000, in their UTF-8
    encodings. [spaceWidth b0 b1 b2] is the byte length of the white
    space code point encoded by the bytes [b0 b1 b2] (lead byte first),
    0 when they encode none. *)
Definition spaceWidth (b0 : nat) (b1 b2 : option nat) : nat :=
  if ((9 <=? b0) && (b0 <=? 13) || (b0 =? 32))%nat then 1%nat
  else match b1 with
       | None => 0%nat
       | Some b1 =>
           if ((b0 =? 194) && ((b1 =? 133) || (b1 =? 160)))%nat then 2%nat
           else match b2 with
                | None => 0%nat
                | Some b2 =>
                    if ((b0 =? 225) && (b1 =? 154) && (b2 =? 128)
                        || (b0 =? 226) && (b1 =? 128)
                           && ((128 <=? b2) && (b2 <=? 138)
                               || (b2 =? 168) || (b2 =? 169) || (b2 =? 175))
                        || (b0 =? 226) && (b1 =? 129) && (b2 =? 159)
                        || (b0 =? 227) && (b1 =? 128) && (b2 =? 128))%nat
                    then 3%nat else 0%nat
                end
       end.

Definition byteAt (n : nat) (s : string) : option nat :=
  nat_of_ascii <$> String.get n s.

(** White space at the front of [s]. *)
Definition leadingSpace (s : string) : nat :=
  match s with
  | "" => 0%nat
  | String c _ => spaceWidth (nat_of_ascii c) (byteAt 1 s) (byteAt 2 s)
  end.

(** White space at the end of a string given reversed: the lead byte
    is the last of the bytes read. *)
Definition trailingSpace (r : string) : nat :=
  match r with
  | "" => 0%nat
  | String c _ =>
      if (0 <? spaceWidth (nat_of_ascii c) None None)%nat then 1%nat
      else match byteAt 1 r with
           | None => 0%nat
           | Some b =>
               if (spaceWidth b (Some (nat_of_ascii c)) None =? 2)%nat then 2%nat
               else match byteAt 2 r with
                    | None => 0%nat
                    | Some a =>
                        if (spaceWidth a (Some b) (Some (nat_of_ascii c)) =? 3)%nat
                        then 3%nat else 0%nat
                    end
               end
      end.

Fixpoint trim_go (width : string -> nat) (skip : nat) (s : string) : string :=
  match s with
  | "" => ""
  | String _ s' =>
      match skip with
      | S k => trim_go width k s'
      | O => match width s with
             | O => s
             | S k => trim_go width k s'
             end
      end
  end.

Definition TrimSpace (s : string) : string :=
  rev (trim_go trailingSpace 0 (rev (trim_go leadingSpace 0 s))).

End strings.

(** ** The three directive patterns

    [regexp.MustCompile("@title.*")] and its two siblings: a literal tag
    followed by [.*], which runs to the end of the line since [.] matches
    every byte but the newline. *)

Module regexp.

Inductive Regexp := TagLine (tag : string).

Definition newline : string := String (ascii_of_nat 10) "".

(** The match within one line, if any: from the first occurrence of
    the tag to the end of the line. *)
Definition matchLine (tag line : string) : option string :=
  let i := strings.Index line tag in
  if i <? 0 then None else Some (strings.drop (Z.to_nat i) line).

(** [re.FindAllString(s, -1)]: the successive matches, left to right.
    A match never crosses a newline and reaches the end of its line,
    so there is at most one in each line. *)
Definition FindAllString (re : Regexp) (s : string) : list string :=
  let 'TagLine tag := re in
  omap (matchLine tag) (strings.Split s newline).

End regexp.

Definition actionRegex : regexp.Regexp := regexp.TagLine "@action".
Definition versionRegex : regexp.Regexp := regexp.TagLine "@version".
Definition titleRegex : regexp.Regexp := regexp.TagLine "@title".

(** ** Directive *)

Record Directive := mkDirective {
  Descrition : string;
  action : string;
  version : string;
  title : string
}.

(** [&Directive{Descrition: desc}] *)
Definition newDirective (desc : string) : Directive :=
  mkDirective desc "" "" "".

(** The accessors have pointer receivers: each returns its value and the
    directive as the call leaves it. *)
Definition Exclude (d : Directive) : bool * Directive :=
  let exclude := strings.Contains (Descrition d) "@exclude" in
  if exclude
  then (exclude,
        mkDirective (strings.ReplaceAll (Descrition d) "@exclude" "")
                    (action d) (version d) (title d))
  else (exclude, d).

(** The part shared by [Title], [Action] and [Version] after the cache
    test: the first match, the tag removed from it, and the description
    with every occurrence of the match removed. *)
Definition scanTag (re : regexp.Regexp) (tag desc : string) : string * string :=
  match regexp.FindAllString re desc with
  | m :: _ => (strings.ReplaceAll m tag "", strings.ReplaceAll desc m "")
  | [] => ("", desc)
  end.

Definition Title (d : Directive) : string * Directive :=
  if negb (String.eqb (title d) "") then (title d, d)
  else
    let '(t, desc) := scanTag titleRegex "@title" (Descrition d) in
    let t := strings.TrimSpace t in
    (t, mkDirective desc (action d) (version d) t).

Definition Action (d : Directive) : string * Directive :=
  if negb (String.eqb (action d) "") then (action d, d)
  else
    let '(a, desc) := scanTag actionRegex "@action" (Descrition d) in
    let a := strings.TrimSpace a in
    (a, mkDirective desc a (version d) (title d)).

Definition Version (d : Directive) : string * Directive :=
  if negb (String.eqb (version d) "") then (version d, d)
  else
    let '(v, desc) := scanTag versionRegex "@version" (Descrition d) in
    let v := strings.TrimSpace v in
    (v, mkDirective desc (action d) v (title d)).

(** ** Descriptor enumerations ([descriptor.pb.go]) *)

Inductive FieldDescriptorProto_Label :=
  LABEL_OPTIONAL | LABEL_REQUIRED | LABEL_REPEATED.

Definition Label_String (lbl : FieldDescriptorProto_Label) : string :=
  match lbl with
  | LABEL_OPTIONAL => "LABEL_OPTIONAL"
  | LABEL_REQUIRED => "LABEL_REQUIRED"
  | LABEL_REPEATED => "LABEL_REPEATED"
  end.

Definition Label_eqb (a b : FieldDescriptorProto_Label) : bool :=
  match a, b with
  | LABEL_OPTIONAL, LABEL_OPTIONAL
  | LABEL_REQUIRED, LABEL_REQUIRED
  | LABEL_REPEATED, LABEL_REPEATED => true
  | _, _ => false
  end.

Inductive FieldDescriptorProto_Type :=
  | TYPE_DOUBLE | TYPE_FLOAT | TYPE_INT64 | TYPE_UINT64 | TYPE_INT32
  | TYPE_FIXED64 | TYPE_FIXED32 | TYPE_BOOL | TYPE_STRING | TYPE_GROUP
  | TYPE_MESSAGE | TYPE_BYTES | TYPE_UINT32 | TYPE_ENUM | TYPE_SFIXED32
  | TYPE_SFIXED64 | TYPE_SINT32 | TYPE_SINT64.

Definition Type_String (t : FieldDescriptorProto_Type) : string :=
  match t with
  | TYPE_DOUBLE => "TYPE_DOUBLE" | TYPE_FLOAT => "TYPE_FLOAT"
  | TYPE_INT64 => "TYPE_INT64" | TYPE_UINT64 => "TYPE_UINT64"
  | TYPE_INT32 => "TYPE_INT32" | TYPE_FIXED64 => "TYPE_FIXED64"
  | TYPE_FIXED32 => "TYPE_FIXED32" | TYPE_BOOL => "TYPE_BOOL"
  | TYPE_STRING => "TYPE_STRING" | TYPE_GROUP => "TYPE_GROUP"
  | TYPE_MESSAGE => "TYPE_MESSAGE" | TYPE_BYTES => "TYPE_BYTES"
  | TYPE_UINT32 => "TYPE_UINT32" | TYPE_ENUM => "TYPE_ENUM"
  | TYPE_SFIXED32 => "TYPE_SFIXED32" | TYPE_SFIXED64 => "TYPE_SFIXED64"
  | TYPE_SINT32 => "TYPE_SINT32" | TYPE_SINT64 => "TYPE_SINT64"
  end.

Inductive MethodOptions_IdempotencyLevel :=
  IDEMPOTENCY_UNKNOWN | NO_SIDE_EFFECTS | IDEMPOTENT.

Definition IdempotencyLevel_String (l : MethodOptions_IdempotencyLevel) : string :=
  match l with
  | IDEMPOTENCY_UNKNOWN => "IDEMPOTENCY_UNKNOWN"
  | NO_SIDE_EFFECTS => "NO_SIDE_EFFECTS"
  | IDEMPOTENT => "IDEMPOTENT"
  end.

Record MethodOptions := mkMethodOptions {
  MethodOptions_Deprecated : bool;
  MethodOptions_IdempotencyLevel_ : option MethodOptions_IdempotencyLevel
}.

(** The [commonOptions] interface. [extractOptions] reads [GetDeprecated]
    and, by a type switch, the idempotency level of a (possibly nil)
    [*descriptor.MethodOptions]. *)
Inductive commonOptions :=
  | OtherOptions (deprecated : bool)
  | MethodOpts (opts : option MethodOptions).

Definition GetDeprecated (opts : commonOptions) : bool :=
  match opts with
  | OtherOptions deprecated => deprecated
  | MethodOpts (Some o) => MethodOptions_Deprecated o
  | MethodOpts None => false
  end.

(** Go's [interface{}] option values: [true] under "deprecated", the
    level's name under "idempotency_level", and whatever the extension
    transformers produce. *)
Inductive value (Payload : Type) :=
  | VBool (b : bool)
  | VString (s : string)
  | VExt (p : Payload).
Arguments VBool {Payload} b.
Arguments VString {Payload} s.
Arguments VExt {Payload} p.

(** [fmt.Sprint] of an [int32]. *)
Definition Sprint_int32 (n : Z) : string := NilEmpty.string_of_int (Z.to_int n).

Record ScalarValue := mkScalarValue {
  ProtoType : string;
  Notes : string;
  CppType : string;
  CSharp : string;
  GoType : string;
  JavaType : string;
  PhpType : string;
  PythonType : string;
  RubyType : string
}.

(** ** What the program takes from outside [template.go]

    - [extensions.Transform], the registry of option-extension
      transformers;
    - [json.Indent] with an empty prefix and a two-space indent, [None]
      when it reports an error;
    - [sort.Sort], given the [Less] of the collection. *)
Class Host := {
  Payload : Type;
  extensions_Transform :
    gmap string (value Payload) -> gmap string (value Payload);
  json_Indent : string -> option string;
  sort_Sort : forall A : Type, (A -> A -> bool) -> list A -> list A
}.

(** [fetchResource] (of the package, in another file) and
    [json.Unmarshal] into [[]*ScalarValue]: each gives an error, with its
    message, or a result; a decoded [null] is the nil slice. *)
Class Resources := {
  fetchResource : string -> string + string;
  json_Unmarshal : string -> string + option (list ScalarValue)
}.

(** What [sort.Sort] promises for the [Less] of an [ordered*] collection,
    [x.LongName < y.LongName]: the result holds the same elements and no
    element is less than one before it. It promises no more: "the sort is
    not guaranteed to be stable". *)
Class SortContract (H : Host) : Prop := {
  sort_Sort_perm : forall A (less : A -> A -> bool) (l : list A),
    Permutation l (sort_Sort A less l);
  sort_Sort_sorted : forall A (key : A -> string) (l : list A),
    StronglySorted (fun x y => String.ltb (key y) (key x) = false)
      (sort_Sort A (fun x y => String.ltb (key x) (key y)) l)
}.

Section Gendoc.

Context {host : Host} {resources : Resources}.

Abbreviation Options := (gmap string (value Payload)).

(** ** The descriptors read ([protokit]): for each kind, what its
    accessors return. [Comments] is [GetComments().String()]; [Package]
    and [IsProto3] are those of the owning file. *)

Record EnumValueDescriptor := mkEnumValueDescriptor {
  evd_Name : string;
  evd_Number : Z;
  evd_Comments : string;
  evd_Deprecated : bool;
  evd_OptionExtensions : Options
}.

Record EnumDescriptor := mkEnumDescriptor {
  ed_Name : string;
  ed_LongName : string;
  ed_FullName : string;
  ed_Comments : string;
  ed_Deprecated : bool;
  ed_OptionExtensions : Options;
  ed_Values : list EnumValueDescriptor
}.

(** The fields of [descriptor.FieldDescriptorProto] and of the protokit
    wrapper that [FieldDescriptor] and [ExtensionDescriptor] share. *)
Record FieldProto := mkFieldProto {
  fp_Name : string;
  fp_LongName : string;
  fp_FullName : string;
  fp_Comments : string;
  fp_Label : FieldDescriptorProto_Label;
  fp_Type : FieldDescriptorProto_Type;
  fp_TypeName : string;
  fp_Package : string;
  fp_IsProto3 : bool;
  fp_Proto3Optional : bool;
  fp_Number : Z;
  fp_DefaultValue : string;
  fp_Extendee : string;
  fp_OneofIndex : option Z;
  fp_Deprecated : bool;
  fp_OptionExtensions : Options
}.

Record FieldDescriptor := mkFieldDescriptor {
  fd_Proto : FieldProto
}.

(** [Parent*] are the names of [GetParent()], the message an extension
    is declared in. *)
Record ExtensionDescriptor := mkExtensionDescriptor {
  xd_Proto : FieldProto;
  xd_ParentName : string;
  xd_ParentLongName : string;
  xd_ParentFullName : string
}.

#[warnings="-register-all"]
Inductive Descriptor := mkDescriptor {
  md_Name : string;
  md_LongName : string;
  md_FullName : string;
  md_Comments : string;
  md_Deprecated : bool;
  md_OptionExtensions : Options;
  md_Extensions : list ExtensionDescriptor;
  md_Fields : list FieldDescriptor;
  md_OneofDecl : list string;
  md_Enums : list EnumDescriptor;
  md_Messages : list Descriptor
}.

Record MethodDescriptor := mkMethodDescriptor {
  mtd_Name : string;
  mtd_Comments : string;
  mtd_InputType : string;
  mtd_OutputType : string;
  mtd_Package : string;
  mtd_ClientStreaming : bool;
  mtd_ServerStreaming : bool;
  mtd_Options : option MethodOptions;
  mtd_OptionExtensions : Options
}.

Record ServiceDescriptor := mkServiceDescriptor {
  sd_Name : string;
  sd_LongName : string;
  sd_FullName : string;
  sd_Comments : string;
  sd_Deprecated : bool;
  sd_OptionExtensions : Options;
  sd_Methods : list MethodDescriptor
}.

Record FileDescriptor := mkFileDescriptor {
  file_Name : string;
  file_SyntaxComments : string;
  file_Package : string;
  file_Deprecated : bool;
  file_OptionExtensions : Options;
  file_Enums : list EnumDescriptor;
  file_Extensions : list ExtensionDescriptor;
  file_Messages : list Descriptor;
  file_Services : list ServiceDescriptor
}.

(** ** The documentation model *)

Record FileExtension := mkFileExtension {
  FileExtension_Name : string;
  FileExtension_LongName : string;
  FileExtension_FullName : string;
  FileExtension_Description : string;
  FileExtension_Label : string;
  FileExtension_Type : string;
  FileExtension_LongType : string;
  FileExtension_FullType : string;
  FileExtension_Number : Z;
  FileExtension_DefaultValue : string;
  FileExtension_ContainingType : string;
  FileExtension_ContainingLongType : string;
  FileExtension_ContainingFullType : string
}.

Record MessageExtension := mkMessageExtension {
  MessageExtension_FileExtension : FileExtension;
  MessageExtension_ScopeType : string;
  MessageExtension_ScopeLongType : string;
  MessageExtension_ScopeFullType : string
}.

Record MessageField := mkMessageField {
  MessageField_Name : string;
  MessageField_Description : string;
  MessageField_Label : string;
  MessageField_Type : string;
  MessageField_LongType : string;
  MessageField_FullType : string;
  MessageField_IsMap : bool;
  MessageField_IsOneof : bool;
  MessageField_OneofDecl : string;
  MessageField_DefaultValue : string;
  MessageField_Required : bool;
  MessageField_Options : option Options
}.

Record Message := mkMessage {
  Message_Name : string;
  Message_LongName : string;
  Message_FullName : string;
  Message_Description : string;
  Message_HasExtensions : bool;
  Message_HasFields : bool;
  Message_HasOneofs : bool;
  Message_Extensions : list MessageExtension;
  Message_Fields : list MessageField;
  Message_Exclude : bool;
  Message_Options : option Options
}.

Record EnumValue := mkEnumValue {
  EnumValue_Name : string;
  EnumValue_Number : string;
  EnumValue_Description : string;
  EnumValue_Options : option Options
}.

Record Enum := mkEnum {
  Enum_Name : string;
  Enum_LongName : string;
  Enum_FullName : string;
  Enum_Description : string;
  Enum_Values : list EnumValue;
  Enum_Exclude : bool;
  Enum_Options : option Options
}.

Record ServiceMethod := mkServiceMethod {
  ServiceMethod_Name : string;
  ServiceMethod_Description : string;
  ServiceMethod_RequestType : string;
  ServiceMethod_RequestLongType : string;
  ServiceMethod_RequestFullType : string;
  ServiceMethod_RequestStreaming : bool;
  ServiceMethod_ResponseType : string;
  ServiceMethod_ResponseLongType : string;
  ServiceMethod_ResponseFullType : string;
  ServiceMethod_ResponseStreaming : bool;
  ServiceMethod_Title : string;
  ServiceMethod_Action : string;
  ServiceMethod_Version : string;
  ServiceMethod_Exclude : bool;
  ServiceMethod_Options : option Options
}.

Record Service := mkService {
  Service_Name : string;
  Service_LongName : string;
  Service_FullName : string;
  Service_Description : string;
  Service_Methods : list ServiceMethod;
  Service_Title : string;
  Service_Exclude : bool;
  Service_Options : option Options
}.

Record File := mkFile {
  File_Name : string;
  File_Description : string;
  File_Package : string;
  File_HasEnums : bool;
  File_HasExtensions : bool;
  File_HasMessages : bool;
  File_HasServices : bool;
  File_Enums : list Enum;
  File_Extensions : list FileExtension;
  File_Messages : list Message;
  File_Services : list Service;
  File_Options : option Options
}.

Record Template := mkTemplate {
  Files : list File;
  Scalars : option (list ScalarValue)
}.

(** ** Options *)

(** The body of the two nested [range] loops of [mergeOptions]: a key
    already in [out] is skipped. *)
Definition mergeInto {V} (out opts : gmap string V) : gmap string V :=
  map_fold (fun k v out =>
              match out !! k with
              | Some _ => out
              | None => <[k := v]> out
              end) out opts.

Definition mergeOptions {V} (opts : list (gmap string V)) : option (gmap string V) :=
  let out := foldl mergeInto ∅ opts in
  if decide (size out = 0%nat) then None else Some out.

Definition extractOptions (opts : commonOptions) : Options :=
  let out : Options := ∅ in
  let out := if GetDeprecated opts then <["deprecated" := VBool true]> out else out in
  match opts with
  | MethodOpts (Some o) =>
      match MethodOptions_IdempotencyLevel_ o with
      | Some l => <["idempotency_level" := VString (IdempotencyLevel_String l)]> out
      | None => out
      end
  | _ => out
  end.

(** ** Descriptions *)

Definition IndentJson (s : string) : string :=
  match json_Indent s with
  | None => s
  | Some out => out
  end.

(** How the loop of [IndentJsonInComment] ends: its condition fails with
    [res] and [comment] as they are, or an opening tag has no closing
    one. [OutOfFuel] is not reached from [IndentJsonInComment]
    ([indentLoop_fuel]). *)
Inductive loopResult :=
  | Done (res comment : string)
  | Unclosed
  | OutOfFuel.

Fixpoint indentLoop (fuel : nat) (beginTag endTag res comment : string) : loopResult :=
  let startIdx := strings.Index comment beginTag in
  if 0 <? startIdx then
    match fuel with
    | O => OutOfFuel
    | S fuel' =>
        let res := res +:+ strings.take (Z.to_nat startIdx) comment in
        let comment :=
          strings.drop (Z.to_nat (startIdx + Z.of_nat (String.length beginTag))) comment in
        let res := res +:+ beginTag in
        let endIdx := strings.Index comment endTag in
        if endIdx =? -1 then Unclosed
        else
          let jsonStr := strings.take (Z.to_nat endIdx) comment in
          let intendedJson := IndentJson jsonStr in
          let res := res +:+ (regexp.newline +:+ intendedJson) in
          let res := res +:+ endTag in
          let comment :=
            strings.drop (Z.to_nat (endIdx + Z.of_nat (String.length endTag))) comment in
          indentLoop fuel' beginTag endTag res comment
    end
  else Done res comment.

Definition IndentJsonInComment (comment beginTag endTag : string) : string :=
  let originComment := comment in
  match indentLoop (String.length comment) beginTag endTag "" comment with
  | Unclosed => originComment
  | Done res comment => if String.eqb res "" then comment else res +:+ comment
  | OutOfFuel => originComment
  end.

Definition description (comment : string) : string :=
  let val := strings.TrimLeft comment ("*/" +:+ regexp.newline +:+ " ") in
  IndentJsonInComment val "```json" "```".

(** ** Names and types *)

Definition baseName (name : string) : string :=
  let parts := strings.Split name "." in
  default "" (parts !! (length parts - 1)%nat).

Definition labelName (lbl : FieldDescriptorProto_Label) (proto3 proto3Opt : bool) : string :=
  if proto3 && negb proto3Opt && negb (Label_eqb lbl LABEL_REPEATED) then ""
  else strings.ToLower (strings.TrimPrefix (Label_String lbl) "LABEL_").

(** The [typeContainer] interface. *)
Class typeContainer (T : Type) := {
  GetType : T -> FieldDescriptorProto_Type;
  GetTypeName : T -> string;
  GetPackage : T -> string
}.

#[global] Instance FieldDescriptor_typeContainer : typeContainer FieldDescriptor :=
  {| GetType pf := fp_Type (fd_Proto pf);
     GetTypeName pf := fp_TypeName (fd_Proto pf);
     GetPackage pf := fp_Package (fd_Proto pf) |}.

#[global] Instance ExtensionDescriptor_typeContainer : typeContainer ExtensionDescriptor :=
  {| GetType pe := fp_Type (xd_Proto pe);
     GetTypeName pe := fp_TypeName (xd_Proto pe);
     GetPackage pe := fp_Package (xd_Proto pe) |}.

Definition parseType {T} `{typeContainer T} (tc : T) : string * string * string :=
  let name := GetTypeName tc in
  if strings.HasPrefix name "." then
    let name := strings.TrimPrefix name "." in
    (baseName name, strings.TrimPrefix name (GetPackage tc +:+ "."), name)
  else
    let name := strings.ToLower (strings.TrimPrefix (Type_String (GetType tc)) "TYPE_") in
    (name, name, name).

(** ** Entity parsers

    A [for ... range] loop that appends one record for each element. *)
Definition appendEach {A B} (f : A -> B) (xs : list A) (acc : list B) : list B :=
  foldl (fun acc x => acc ++ [f x]) acc xs.

Fixpoint appendEachM {A B} (f : A -> option B) (xs : list A) (acc : list B)
  : option (list B) :=
  match xs with
  | [] => Some acc
  | x :: xs' => y ← f x; appendEachM f xs' (acc ++ [y])
  end.

(** [l[i]] for a signed index: out of range is a panic. *)
Definition index {A} (l : list A) (i : Z) : option A :=
  if i <? 0 then None else l !! Z.to_nat i.

(** In each composite literal below [directive.Descrition] is the last
    operand that touches the directive: it is read after the calls. *)

(** The [EnumValue] literal in the loop of [parseEnum]. *)
Definition parseEnum_value (val : EnumValueDescriptor) : EnumValue :=
  {| EnumValue_Name := evd_Name val;
     EnumValue_Number := Sprint_int32 (evd_Number val);
     EnumValue_Description := description (evd_Comments val);
     EnumValue_Options :=
       mergeOptions [extractOptions (OtherOptions (evd_Deprecated val));
                     extensions_Transform (evd_OptionExtensions val)] |}.

Definition parseEnum (pe : EnumDescriptor) : Enum :=
  let desc := description (ed_Comments pe) in
  let directive := newDirective desc in
  let '(exclude, directive) := Exclude directive in
  {| Enum_Name := ed_Name pe;
     Enum_LongName := ed_LongName pe;
     Enum_FullName := ed_FullName pe;
     Enum_Exclude := exclude;
     Enum_Description := Descrition directive;
     Enum_Options :=
       mergeOptions [extractOptions (OtherOptions (ed_Deprecated pe));
                     extensions_Transform (ed_OptionExtensions pe)];
     Enum_Values := appendEach parseEnum_value (ed_Values pe) [] |}.

Definition parseFileExtension (pe : ExtensionDescriptor) : FileExtension :=
  let '(t, lt, ft) := parseType pe in
  let p := xd_Proto pe in
  {| FileExtension_Name := fp_Name p;
     FileExtension_LongName := fp_LongName p;
     FileExtension_FullName := fp_FullName p;
     FileExtension_Description := description (fp_Comments p);
     FileExtension_Label :=
       labelName (fp_Label p) (fp_IsProto3 p) (fp_Proto3Optional p);
     FileExtension_Type := t;
     FileExtension_LongType := lt;
     FileExtension_FullType := ft;
     FileExtension_Number := fp_Number p;
     FileExtension_DefaultValue := fp_DefaultValue p;
     FileExtension_ContainingType := baseName (fp_Extendee p);
     FileExtension_ContainingLongType :=
       strings.TrimPrefix (fp_Extendee p) ("." +:+ fp_Package p +:+ ".");
     FileExtension_ContainingFullType := strings.TrimPrefix (fp_Extendee p) "." |}.

Definition parseMessageExtension (pe : ExtensionDescriptor) : MessageExtension :=
  {| MessageExtension_FileExtension := parseFileExtension pe;
     MessageExtension_ScopeType := xd_ParentName pe;
     MessageExtension_ScopeLongType := xd_ParentLongName pe;
     MessageExtension_ScopeFullType := xd_ParentFullName pe |}.

Definition parseMessageField (pf : FieldDescriptor) (oneofDecls : list string)
  : option MessageField :=
  let '(t, lt, ft) := parseType pf in
  let p := fd_Proto pf in
  let desc := description (fp_Comments p) in
  let required := strings.Contains desc "@required" in
  let desc := strings.ReplaceAll desc "@required" "" in
  let label := labelName (fp_Label p) (fp_IsProto3 p) (fp_Proto3Optional p) in
  let isOneof := bool_decide (is_Some (fp_OneofIndex p)) in
  oneofDecl ←
    match fp_OneofIndex p with
    | Some i => index oneofDecls i
    | None => Some ""
    end;
  let isMap :=
    String.eqb label "repeated"
    && strings.Contains lt "."
    && strings.HasSuffix t "Entry"
    && strings.HasSuffix lt "Entry"
    && strings.HasSuffix ft "Entry" in
  Some {| MessageField_Name := fp_Name p;
          MessageField_Description := desc;
          MessageField_Label := label;
          MessageField_Type := t;
          MessageField_LongType := lt;
          MessageField_FullType := ft;
          MessageField_DefaultValue := fp_DefaultValue p;
          MessageField_Options :=
            mergeOptions [extractOptions (OtherOptions (fp_Deprecated p));
                          extensions_Transform (fp_OptionExtensions p)];
          MessageField_IsOneof := isOneof;
          MessageField_Required := required;
          MessageField_OneofDecl := oneofDecl;
          MessageField_IsMap := isMap |}.

Definition parseMessage (pm : Descriptor) : option Message :=
  let desc := description (md_Comments pm) in
  let directive := newDirective desc in
  let '(exclude, directive) := Exclude directive in
  let extensions := appendEach parseMessageExtension (md_Extensions pm) [] in
  fields ← appendEachM (fun f => parseMessageField f (md_OneofDecl pm)) (md_Fields pm) [];
  Some {| Message_Name := md_Name pm;
          Message_LongName := md_LongName pm;
          Message_FullName := md_FullName pm;
          Message_Exclude := exclude;
          Message_Description := Descrition directive;
          Message_HasExtensions := (0 <? length (md_Extensions pm))%nat;
          Message_HasFields := (0 <? length (md_Fields pm))%nat;
          Message_HasOneofs := (0 <? length (md_OneofDecl pm))%nat;
          Message_Extensions := extensions;
          Message_Fields := fields;
          Message_Options :=
            mergeOptions [extractOptions (OtherOptions (md_Deprecated pm));
                          extensions_Transform (md_OptionExtensions pm)] |}.

Definition parseServiceMethod (pm : MethodDescriptor) : ServiceMethod :=
  let desc := description (mtd_Comments pm) in
  let directive := newDirective desc in
  let '(action, directive) := Action directive in
  let '(version, directive) := Version directive in
  let '(title, directive) := Title directive in
  let '(exclude, directive) := Exclude directive in
  {| ServiceMethod_Name := mtd_Name pm;
     ServiceMethod_RequestType := baseName (mtd_InputType pm);
     ServiceMethod_RequestLongType :=
       strings.TrimPrefix (mtd_InputType pm) ("." +:+ mtd_Package pm +:+ ".");
     ServiceMethod_RequestFullType := strings.TrimPrefix (mtd_InputType pm) ".";
     ServiceMethod_RequestStreaming := mtd_ClientStreaming pm;
     ServiceMethod_ResponseType := baseName (mtd_OutputType pm);
     ServiceMethod_ResponseLongType :=
       strings.TrimPrefix (mtd_OutputType pm) ("." +:+ mtd_Package pm +:+ ".");
     ServiceMethod_ResponseFullType := strings.TrimPrefix (mtd_OutputType pm) ".";
     ServiceMethod_ResponseStreaming := mtd_ServerStreaming pm;
     ServiceMethod_Action := action;
     ServiceMethod_Version := version;
     ServiceMethod_Title := title;
     ServiceMethod_Exclude := exclude;
     ServiceMethod_Options :=
       mergeOptions [extractOptions (MethodOpts (mtd_Options pm));
                     extensions_Transform (mtd_OptionExtensions pm)];
     ServiceMethod_Description := Descrition directive |}.

Definition parseService (ps : ServiceDescriptor) : Service :=
  let desc := description (sd_Comments ps) in
  let directive := newDirective desc in
  let '(title, directive) := Title directive in
  let '(exclude, directive) := Exclude directive in
  {| Service_Name := sd_Name ps;
     Service_LongName := sd_LongName ps;
     Service_FullName := sd_FullName ps;
     Service_Title := title;
     Service_Exclude := exclude;
     Service_Options :=
       mergeOptions [extractOptions (OtherOptions (sd_Deprecated ps));
                     extensions_Transform (sd_OptionExtensions ps)];
     Service_Description := Descrition directive;
     Service_Methods := appendEach parseServiceMethod (sd_Methods ps) [] |}.

(** ** The template *)

(** A [for ... range] loop whose body updates the state [st] and may
    panic. *)
Definition forEachM {A St} (body : A -> St -> option St)
  : list A -> St -> option St :=
  fix go (xs : list A) (st : St) : option St :=
    match xs with
    | [] => Some st
    | x :: xs' => st' ← body x st; go xs' st'
    end.

(** The closure [addFromMessage] of [NewTemplate]. It appends to
    [file.Messages] and [file.Enums], the pair it is given and returns. *)
Fixpoint addFromMessage (m : Descriptor) (st : list Message * list Enum)
  : option (list Message * list Enum) :=
  msg ← parseMessage m;
  let messages := st.1 ++ [msg] in
  let enums := appendEach parseEnum (md_Enums m) st.2 in
  forEachM addFromMessage (md_Messages m) (messages, enums).

Definition orderedEnums_Less (x y : Enum) : bool :=
  String.ltb (Enum_LongName x) (Enum_LongName y).
Definition orderedExtensions_Less (x y : FileExtension) : bool :=
  String.ltb (FileExtension_LongName x) (FileExtension_LongName y).
Definition orderedMessages_Less (x y : Message) : bool :=
  String.ltb (Message_LongName x) (Message_LongName y).
Definition orderedServices_Less (x y : Service) : bool :=
  String.ltb (Service_LongName x) (Service_LongName y).

(** The four collections of a file as the loops of [NewTemplate] leave
    them, before they are sorted. *)
Record Discovered := mkDiscovered {
  found_Enums : list Enum;
  found_Extensions : list FileExtension;
  found_Messages : list Message;
  found_Services : list Service
}.

Definition discover (f : FileDescriptor) : option Discovered :=
  let enums := appendEach parseEnum (file_Enums f) [] in
  let extensions := appendEach parseFileExtension (file_Extensions f) [] in
  st ← forEachM addFromMessage (file_Messages f) ([], enums);
  let services := appendEach parseService (file_Services f) [] in
  Some (mkDiscovered st.2 extensions st.1 services).

(** The body of the loop of [NewTemplate]: one [File] for a descriptor. *)
Definition NewTemplate_file (f : FileDescriptor) : option File :=
  found ← discover f;
  Some {| File_Name := file_Name f;
          File_Description := description (file_SyntaxComments f);
          File_Package := file_Package f;
          File_HasEnums := (0 <? length (file_Enums f))%nat;
          File_HasExtensions := (0 <? length (file_Extensions f))%nat;
          File_HasMessages := (0 <? length (file_Messages f))%nat;
          File_HasServices := (0 <? length (file_Services f))%nat;
          File_Enums := sort_Sort Enum orderedEnums_Less (found_Enums found);
          File_Extensions :=
            sort_Sort FileExtension orderedExtensions_Less (found_Extensions found);
          File_Messages :=
            sort_Sort Message orderedMessages_Less (found_Messages found);
          File_Services :=
            sort_Sort Service orderedServices_Less (found_Services found);
          File_Options :=
            mergeOptions [extractOptions (OtherOptions (file_Deprecated f));
                          extensions_Transform (file_OptionExtensions f)] |}.

(** [makeScalars] with the lines it prints. *)
Definition makeScalars : option (list ScalarValue) * list string :=
  match fetchResource "scalars.json" with
  | inl err => (None, [err])
  | inr data =>
      match json_Unmarshal data with
      | inl err => (None, [err])
      | inr scalars => (scalars, [])
      end
  end.

(** [NewTemplate] with the lines printed on the way; [None] when a
    parser panics. *)
Definition NewTemplate (descs : list FileDescriptor)
  : option (Template * list string) :=
  files ← appendEachM NewTemplate_file descs [];
  let '(scalars, printed) := makeScalars in
  Some ({| Files := files; Scalars := scalars |}, printed).

End Gendoc.

(** ** A host for the examples

    [sort.Sort] as the Go releases up to 1.18 ran it on a slice of at
    most twelve elements ([quickSort] leaves its loop at once): one pass
    of Shell sort with gap 6, then [insertionSort]. On longer lists the
    two passes still sort, which is all the examples ask of them. *)

Module sort.

Section Interface.
Context {A : Type} (Less : A -> A -> bool).

(** [data.Swap(i, j)] *)
Definition Swap (i j : nat) (data : list A) : list A :=
  match data !! i, data !! j with
  | Some x, Some y => <[j := x]> (<[i := y]> data)
  | _, _ => data
  end.

(** [data.Less(i, j)] *)
Definition LessAt (i j : nat) (data : list A) : bool :=
  match data !! i, data !! j with
  | Some x, Some y => Less x y
  | _, _ => false
  end.

(** [for j := i; j > 0 && data.Less(j, j-1); j-- { data.Swap(j, j-1) }] *)
Fixpoint sink (j : nat) (data : list A) : list A :=
  match j with
  | O => data
  | S j' => if LessAt j j' data then sink j' (Swap j j' data) else data
  end.

Definition insertionSort (data : list A) : list A :=
  foldl (fun data i => sink i data) data (seq 1 (length data - 1)).

(** [for i := 6; i < n; i++ { if data.Less(i, i-6) { data.Swap(i, i-6) } }] *)
Definition shellPass (data : list A) : list A :=
  foldl (fun data i => if LessAt i (i - 6) data then Swap i (i - 6) data else data)
        data (seq 6 (length data - 6)).

Definition Sort (data : list A) : list A := insertionSort (shellPass data).

(** [x] may stand before [y]: [y] is not less than [x]. *)
Definition ordered (x y : A) : Prop := Less y x = false.
End Interface.

End sort.

(** [json.Indent] on the segments of the examples: the one JSON object
    among them, indented as [encoding/json] does; the others are not
    JSON. *)
Definition quote : string := String (ascii_of_nat 34) "".

Definition exampleJson : string := "{" +:+ quote +:+ "a" +:+ quote +:+ ":1}".

Definition exampleIndent (s : string) : option string :=
  if String.eqb s exampleJson
  then Some ("{" +:+ regexp.newline +:+ "  " +:+ quote +:+ "a" +:+ quote +:+ ": 1"
             +:+ regexp.newline +:+ "}")
  else None.

(** No transformer is registered: [extensions.Transform] hands the
    payloads on as they are. *)
Definition exampleHost : Host := {|
  Payload := unit;
  extensions_Transform := id;
  json_Indent := exampleIndent;
  sort_Sort := @sort.Sort
|}.


(** ** Definitions that state the properties *)

(** The value of [k] in the earliest map of [opts] that defines it. *)
Fixpoint firstValue {V} (k : string) (opts : list (gmap string V)) : option V :=
  match opts with
  | [] => None
  | m :: rest =>
      match m !! k with
      | Some v => Some v
      | None => firstValue k rest
      end
  end.

(** The comment ["Does X.\n@exclude\n@title Foo"]. *)
Definition roundTripComment : string :=
  "Does X." +:+ regexp.newline +:+ "@exclude" +:+ regexp.newline +:+ "@title Foo".

(** The three cached accessors of a directive. *)
Inductive cachedAccessor := AccTitle | AccAction | AccVersion.

Definition call (acc : cachedAccessor) (d : Directive) : string * Directive :=
  match acc with
  | AccTitle => Title d
  | AccAction => Action d
  | AccVersion => Version d
  end.


(** Fields of the package [com.example], as [Vehicle.proto] has them. *)
Definition exampleFieldProto (name : string) (lbl : FieldDescriptorProto_Label)
    (ty : FieldDescriptorProto_Type) (typeName : string) : FieldProto (host := exampleHost) :=
  {| fp_Name := name; fp_LongName := name; fp_FullName := name;
     fp_Comments := ""; fp_Label := lbl; fp_Type := ty; fp_TypeName := typeName;
     fp_Package := "com.example"; fp_IsProto3 := true; fp_Proto3Optional := false;
     fp_Number := 1; fp_DefaultValue := ""; fp_Extendee := "";
     fp_OneofIndex := None; fp_Deprecated := false; fp_OptionExtensions := ∅ |}.

Definition exampleField (name : string) (lbl : FieldDescriptorProto_Label)
    (ty : FieldDescriptorProto_Type) (typeName : string) : FieldDescriptor (host := exampleHost) :=
  mkFieldDescriptor (exampleFieldProto name lbl ty typeName).

Definition exampleMethod (name comments input output : string)
  : MethodDescriptor (host := exampleHost) :=
  {| mtd_Name := name; mtd_Comments := comments;
     mtd_InputType := input; mtd_OutputType := output;
     mtd_Package := "com.example";
     mtd_ClientStreaming := false; mtd_ServerStreaming := false;
     mtd_Options := None; mtd_OptionExtensions := ∅ |}.

Section Discovery.
Context {host : Host}.

(** A message and the messages nested in it, depth first: the parent
    before its children, the children in declaration order. *)
Fixpoint preorder (m : Descriptor) : list Descriptor :=
  m :: flat_map preorder (md_Messages m).

(** All the messages of a file, and all its enums: the top-level ones,
    then those declared directly in each message. *)
Definition messagesOf (f : FileDescriptor) : list Descriptor :=
  flat_map preorder (file_Messages f).

Definition enumsOf (f : FileDescriptor) : list EnumDescriptor :=
  file_Enums f ++ flat_map md_Enums (messagesOf f).

(** What a walk over the messages [ms], in this order, adds to the two
    collections: a record for each message, and for each message the
    records of the enums declared in it; nothing when a parser panics. *)
Definition walked (ms : list Descriptor) (st : list Message * list Enum)
  : option (list Message * list Enum) :=
  recs ← mapM parseMessage ms;
  Some (st.1 ++ recs, st.2 ++ map parseEnum (flat_map md_Enums ms)).

(** Every field of the message that belongs to a oneof names one the
    message declares, as in every descriptor a compiler emits. *)
Definition oneofsDeclared (m : Descriptor) : Prop :=
  Forall (fun pf => match fp_OneofIndex (fd_Proto pf) with
                    | Some i => 0 <= i < Z.of_nat (length (md_OneofDecl m))
                    | None => True
                    end) (md_Fields m).

(** Non-decreasing by long name, byte-wise. *)
Definition sortedByLongName {A} (LongName : A -> string) (l : list A) : Prop :=
  StronglySorted (fun x y => String.leb (LongName x) (LongName y) = true) l.

(** Entries with equal long names are in the order they were found in. *)
Definition tiesInDiscoveryOrder {A} (LongName : A -> string)
    (discovered sorted : list A) : Prop :=
  forall name,
    filter (fun x => LongName x = name) sorted
    = filter (fun x => LongName x = name) discovered.

End Discovery.

(** A file with a message [Inner] nested in a message [Outer]. *)
Definition exampleMessage (name long : string) (nested : list (Descriptor (host := exampleHost)))
  : Descriptor (host := exampleHost) :=
  {| md_Name := name; md_LongName := long; md_FullName := "com.example." +:+ long;
     md_Comments := ""; md_Deprecated := false; md_OptionExtensions := ∅;
     md_Extensions := []; md_Fields := []; md_OneofDecl := [];
     md_Enums := []; md_Messages := nested |}.

Definition innerMessage : Descriptor (host := exampleHost) :=
  exampleMessage "Inner" "Outer.Inner" [].

Definition nestedFile : FileDescriptor (host := exampleHost) :=
  {| file_Name := "nested.proto"; file_SyntaxComments := "";
     file_Package := "com.example"; file_Deprecated := false;
     file_OptionExtensions := ∅;
     file_Enums := []; file_Extensions := [];
     file_Messages := [exampleMessage "Outer" "Outer" [innerMessage]];
     file_Services := [] |}.

(** A file with seven top-level enums, two of them with the long name
    [B]; their comments tell them apart. *)
Definition exampleEnum (long comments : string) : EnumDescriptor (host := exampleHost) :=
  {| ed_Name := long; ed_LongName := long; ed_FullName := "com.example." +:+ long;
     ed_Comments := comments; ed_Deprecated := false; ed_OptionExtensions := ∅;
     ed_Values := [] |}.

Definition tiedFile : FileDescriptor (host := exampleHost) :=
  {| file_Name := "tied.proto"; file_SyntaxComments := "";
     file_Package := "com.example"; file_Deprecated := false;
     file_OptionExtensions := ∅;
     file_Enums := [exampleEnum "B" "found first"; exampleEnum "B" "found second";
                    exampleEnum "C" ""; exampleEnum "D" ""; exampleEnum "E" "";
                    exampleEnum "F" ""; exampleEnum "A" ""];
     file_Extensions := []; file_Messages := []; file_Services := [] |}.

(** A resource that cannot be read, and one that holds an empty table. *)
Definition missingResources : Resources :=
  {| fetchResource := fun name => inl ("open resources/" +:+ name +:+ ": file does not exist");
     json_Unmarshal := fun _ => inr (Some []) |}.

Definition emptyTableResources : Resources :=
  {| fetchResource := fun _ => inr "[]";
     json_Unmarshal := fun _ => inr (Some []) |}.

Section Fences.
Context {host : Host}.

(** What the loop of [IndentJsonInComment] makes of a text, block by
    block: [Some] of the new text, or [None] when it meets an opening
    tag with no closing tag after it. The loop reads a block only while
    the text still to be read has an opening tag that is not at its very
    start; from there on the text is kept as it is. *)
Inductive Reindented (beginTag endTag : string) : string -> option string -> Prop :=
  | Reindented_rest comment :
      strings.Index comment beginTag <= 0 ->
      Reindented beginTag endTag comment (Some comment)
  | Reindented_unclosed pre rest :
      strings.Index (pre +:+ beginTag +:+ rest) beginTag
        = Z.of_nat (String.length pre) ->
      pre <> "" ->
      strings.Index rest endTag = -1 ->
      Reindented beginTag endTag (pre +:+ beginTag +:+ rest) None
  | Reindented_block pre jsonStr rest out :
      strings.Index (pre +:+ beginTag +:+ jsonStr +:+ endTag +:+ rest) beginTag
        = Z.of_nat (String.length pre) ->
      pre <> "" ->
      strings.Index (jsonStr +:+ endTag +:+ rest) endTag
        = Z.of_nat (String.length jsonStr) ->
      Reindented beginTag endTag rest out ->
      Reindented beginTag endTag
        (pre +:+ beginTag +:+ jsonStr +:+ endTag +:+ rest)
        ((fun tail => pre +:+ beginTag +:+ regexp.newline +:+ IndentJson jsonStr
                      +:+ endTag +:+ tail) <$> out).

(** The cleaner as C10 words it: every fenced block is re-indented,
    wherever its opening tag stands, unless the first opening tag is at
    the very start of the text. *)
Fixpoint claimedLoop (fuel : nat) (first : bool) (beginTag endTag res comment : string)
  : loopResult :=
  let startIdx := strings.Index comment beginTag in
  if (if first then 0 <? startIdx else 0 <=? startIdx) then
    match fuel with
    | O => OutOfFuel
    | S fuel' =>
        let res := res +:+ strings.take (Z.to_nat startIdx) comment +:+ beginTag in
        let comment :=
          strings.drop (Z.to_nat (startIdx + Z.of_nat (String.length beginTag))) comment in
        let endIdx := strings.Index comment endTag in
        if endIdx =? -1 then Unclosed
        else
          let jsonStr := strings.take (Z.to_nat endIdx) comment in
          let res := res +:+ regexp.newline +:+ IndentJson jsonStr +:+ endTag in
          let comment :=
            strings.drop (Z.to_nat (endIdx + Z.of_nat (String.length endTag))) comment in
          claimedLoop fuel' false beginTag endTag res comment
    end
  else Done res comment.

Definition description_claimed (comment : string) : string :=
  let val := strings.TrimLeft comment ("*/" +:+ regexp.newline +:+ " ") in
  match claimedLoop (String.length val) true "```json" "```" "" val with
  | Done res rest => res +:+ rest
  | Unclosed => val
  | OutOfFuel => val
  end.

End Fences.

(** Two fenced blocks, the second right after the first; and a first
    block followed at once by an opening tag that is never closed. *)
Definition adjacentFences : string :=
  "See```json" +:+ exampleJson +:+ "``````json" +:+ exampleJson +:+ "```".

Definition adjacentUnclosedFence : string := "a```jsonx``````jsony".

(** ** The queries of the model *)

Section Queries.
Context {host : Host}.

(** [m[name]] on an option map that may be nil: nothing when the key is
    not there. *)
Definition mapIndex (options : option (gmap string (value Payload))) (name : string)
  : option (value Payload) :=
  options ≫= fun m => m !! name.

Definition File_Option (f : File) (name : string) := mapIndex (File_Options f) name.
Definition Message_Option (m : Message) (name : string) := mapIndex (Message_Options m) name.
Definition MessageField_Option (f : MessageField) (name : string) :=
  mapIndex (MessageField_Options f) name.
Definition Enum_Option (e : Enum) (name : string) := mapIndex (Enum_Options e) name.
Definition EnumValue_Option (v : EnumValue) (name : string) :=
  mapIndex (EnumValue_Options v) name.
Definition Service_Option (s : Service) (name : string) := mapIndex (Service_Options s) name.
Definition ServiceMethod_Option (m : ServiceMethod) (name : string) :=
  mapIndex (ServiceMethod_Options m) name.

(** The body that [FieldOptions], [ValueOptions] and [MethodOptions]
    share: the names of the options of the children are gathered in a
    set, and the set, unless it is empty, is listed and sorted with
    [sort.Strings]. [elements] lists the set in one of the orders a
    [range] over it may take. *)
Definition optionSetOf {A} (options : A -> option (gmap string (value Payload)))
    (children : list A) : gset string :=
  foldl (fun optionSet child =>
           map_fold (fun option _ optionSet => {[option]} ∪ optionSet)
                    optionSet (default ∅ (options child)))
        ∅ children.

Definition childOptions {A} (options : A -> option (gmap string (value Payload)))
    (children : list A) : option (list string) :=
  let optionSet := optionSetOf options children in
  if decide (size optionSet = 0%nat) then None
  else Some (sort_Sort string String.ltb (elements optionSet)).

(** The body that [FieldsWithOption], [ValuesWithOption] and
    [MethodsWithOption] share. *)
Definition childrenWithOption {A} (options : A -> option (gmap string (value Payload)))
    (children : list A) (optionName : string) : option (list A) :=
  let found :=
    foldl (fun found child =>
             match mapIndex (options child) optionName with
             | Some _ => found ++ [child]
             | None => found
             end) [] children in
  if (0 <? length found)%nat then Some found else None.

Definition Message_FieldOptions (m : Message) : option (list string) :=
  childOptions MessageField_Options (Message_Fields m).
Definition Message_FieldsWithOption (m : Message) (optionName : string)
  : option (list MessageField) :=
  childrenWithOption MessageField_Options (Message_Fields m) optionName.

Definition Enum_ValueOptions (e : Enum) : option (list string) :=
  childOptions EnumValue_Options (Enum_Values e).
Definition Enum_ValuesWithOption (e : Enum) (optionName : string)
  : option (list EnumValue) :=
  childrenWithOption EnumValue_Options (Enum_Values e) optionName.

Definition Service_MethodOptions (s : Service) : option (list string) :=
  childOptions ServiceMethod_Options (Service_Methods s).
Definition Service_MethodsWithOption (s : Service) (optionName : string)
  : option (list ServiceMethod) :=
  childrenWithOption ServiceMethod_Options (Service_Methods s) optionName.

End Queries.

Section QuerySpecs.
Context {host : Host}.

(** What a list of option names says about the children: nil when no
    child has an option, else the names that some child has, in strictly
    ascending order. *)
Definition namesOfOptions {A} (optionOf : A -> string -> option (value Payload))
    (children : list A) (result : option (list string)) : Prop :=
  match result with
  | None => forall child name, child ∈ children -> optionOf child name = None
  | Some names =>
      names <> []
      /\ StronglySorted (fun a b => String.ltb a b = true) names
      /\ forall name,
           name ∈ names
           <-> exists child, child ∈ children /\ is_Some (optionOf child name)
  end.

(** The children that have the option, in their order; nil when there
    is none. *)
Definition havingOption {A} (optionOf : A -> string -> option (value Payload))
    (children : list A) (name : string) : option (list A) :=
  match filter (fun child => is_Some (optionOf child name)) children with
  | [] => None
  | found => Some found
  end.

(** What the declared options and the extension options [ext] of a
    descriptor give for a name: the declared value first. *)
Definition declaredFirst (declared : commonOptions)
    (ext : gmap string (value Payload)) (name : string) : option (value Payload) :=
  if decide (name = "deprecated" /\ GetDeprecated declared = true)
  then Some (VBool true)
  else match declared with
       | MethodOpts (Some {| MethodOptions_IdempotencyLevel_ := Some level |}) =>
           if decide (name = "idempotency_level")
           then Some (VString (IdempotencyLevel_String level))
           else extensions_Transform ext !! name
       | _ => extensions_Transform ext !! name
       end.

End QuerySpecs.

(** A message with two fields that have options, and one without. *)
Definition optionedField (name : string)
    (options : option (gmap string (value (@Payload exampleHost))))
  : MessageField (host := exampleHost) :=
  {| MessageField_Name := name; MessageField_Description := "";
     MessageField_Label := ""; MessageField_Type := "string";
     MessageField_LongType := "string"; MessageField_FullType := "string";
     MessageField_IsMap := false; MessageField_IsOneof := false;
     MessageField_OneofDecl := ""; MessageField_DefaultValue := "";
     MessageField_Required := false; MessageField_Options := options |}.

Definition optionedMessage : Message (host := exampleHost) :=
  {| Message_Name := "Vehicle"; Message_LongName := "Vehicle";
     Message_FullName := "com.example.Vehicle"; Message_Description := "";
     Message_HasExtensions := false; Message_HasFields := true;
     Message_HasOneofs := false; Message_Extensions := [];
     Message_Fields :=
       [ optionedField "reg_number"
           (Some {[ "owner" := VString "x"; "deprecated" := VBool true ]});
         optionedField "mileage" None;
         optionedField "id" (Some {[ "deprecated" := VBool true ]}) ];
     Message_Exclude := false; Message_Options := None |}.

(** A deprecated, idempotent method whose extension options name
    "deprecated" too. *)
Definition deprecatedMethod : MethodDescriptor (host := exampleHost) :=
  {| mtd_Name := "GetVehicle"; mtd_Comments := "Looks up a vehicle by id.";
     mtd_InputType := ".com.example.FindVehicleById";
     mtd_OutputType := ".com.example.Vehicle";
     mtd_Package := "com.example";
     mtd_ClientStreaming := false; mtd_ServerStreaming := false;
     mtd_Options := Some (mkMethodOptions true (Some IDEMPOTENT));
     mtd_OptionExtensions :=
       {[ "deprecated" := VBool false; "owner" := VString "x" ]} |}.

(** A file whose only enum is declared in a message, as [Category] is in
    [Manufacturer]; and a message with a oneof and a field in it. *)
Definition nestedEnumFile : FileDescriptor (host := exampleHost) :=
  {| file_Name := "manufacturer.proto"; file_SyntaxComments := "";
     file_Package := "com.example"; file_Deprecated := false;
     file_OptionExtensions := ∅;
     file_Enums := []; file_Extensions := [];
     file_Messages :=
       [ {| md_Name := "Manufacturer"; md_LongName := "Manufacturer";
            md_FullName := "com.example.Manufacturer";
            md_Comments := ""; md_Deprecated := false; md_OptionExtensions := ∅;
            md_Extensions := []; md_Fields := []; md_OneofDecl := [];
            md_Enums := [exampleEnum "Manufacturer.Category" ""];
            md_Messages := [] |} ];
     file_Services := [] |}.

Definition oneofField (name : string) (oneofIndex : option Z)
  : FieldDescriptor (host := exampleHost) :=
  mkFieldDescriptor
    {| fp_Name := name; fp_LongName := name; fp_FullName := name;
       fp_Comments := ""; fp_Label := LABEL_OPTIONAL; fp_Type := TYPE_INT32;
       fp_TypeName := ""; fp_Package := "com.example"; fp_IsProto3 := true;
       fp_Proto3Optional := false; fp_Number := 8; fp_DefaultValue := "";
       fp_Extendee := ""; fp_OneofIndex := oneofIndex; fp_Deprecated := false;
       fp_OptionExtensions := ∅ |}.

Definition oneofMessage : Descriptor (host := exampleHost) :=
  {| md_Name := "Vehicle"; md_LongName := "Vehicle";
     md_FullName := "com.example.Vehicle";
     md_Comments := ""; md_Deprecated := false; md_OptionExtensions := ∅;
     md_Extensions := [];
     md_Fields := [oneofField "id" None; oneofField "kilometers" (Some 0);
                   oneofField "cat_name" (Some 1)];
     md_OneofDecl := ["travel"; "drivers"];
     md_Enums := []; md_Messages := [] |}.

(** The four accessors of a directive and what each does to it. *)
Inductive accessor := AccExclude | AccCached (acc : cachedAccessor).

Definition after (acc : accessor) (d : Directive) : Directive :=
  match acc with
  | AccExclude => snd (Exclude d)
  | AccCached acc => snd (call acc d)
  end.

(** A proto3 field whose comment carries the "@required" tag. *)
Definition requiredField : FieldDescriptor (host := exampleHost) :=
  mkFieldDescriptor
    {| fp_Name := "id"; fp_LongName := "id"; fp_FullName := "id";
       fp_Comments := "// The id. @required"; fp_Label := LABEL_OPTIONAL;
       fp_Type := TYPE_INT32; fp_TypeName := ""; fp_Package := "com.example";
       fp_IsProto3 := true; fp_Proto3Optional := false; fp_Number := 1;
       fp_DefaultValue := ""; fp_Extendee := ""; fp_OneofIndex := None;
       fp_Deprecated := false; fp_OptionExtensions := ∅ |}.

(** The field in which [Title], [Action] and [Version] keep their value;
    the empty string marks a value not computed yet. *)
Definition cacheOf (acc : cachedAccessor) (d : Directive) : string :=
  match acc with
  | AccTitle => title d
  | AccAction => action d
  | AccVersion => version d
  end.

(** A directive after a series of calls, the first of the list first. *)
Definition afterAll (calls : list accessor) (d : Directive) : Directive :=
  foldl (fun d acc => after acc d) d calls.

(** A file of [com.example] with one message, whose comment has a fenced
    block that is not JSON. *)
Definition badFenceFile : FileDescriptor (host := exampleHost) :=
  {| file_Name := "fence.proto"; file_SyntaxComments := "";
     file_Package := "com.example"; file_Deprecated := false;
     file_OptionExtensions := ∅;
     file_Enums := []; file_Extensions := [];
     file_Messages :=
       [{| md_Name := "Model"; md_LongName := "Model";
           md_FullName := "com.example.Model";
           md_Comments := "// See```jsonnot json```";
           md_Deprecated := false; md_OptionExtensions := ∅;
           md_Extensions := []; md_Fields := []; md_OneofDecl := [];
           md_Enums := []; md_Messages := [] |}];
     file_Services := [] |}.
(** * Properties *)

(** ** Sanity checks of the library models *)

Example strings_Index_ex :
  strings.Index "a```json{}```" "```json" = 1
  /\ strings.Index "abc" "x" = -1
  /\ strings.Index "abc" "" = 0
  /\ strings.Index "" "x" = -1.
Proof. repeat split; reflexivity. Qed.

Example strings_ReplaceAll_ex :
  strings.ReplaceAll "a @exclude b @exclude" "@exclude" "" = "a  b "
  /\ strings.ReplaceAll "aaa" "aa" "b" = "ba"
  /\ strings.ReplaceAll "@excl@excludeude" "@exclude" "" = "@exclude".
Proof. repeat split; reflexivity. Qed.

Example strings_Split_ex :
  strings.Split "com.example.Vehicle" "." = ["com"; "example"; "Vehicle"]
  /\ strings.Split "" "." = [""]
  /\ strings.Split "a." "." = ["a"; ""]
  /\ strings.Split "a--b-c" "--" = ["a"; "b-c"].
Proof. repeat split; reflexivity. Qed.

Example strings_Trim_ex :
  strings.TrimSpace "  Foo bar
 " = "Foo bar"
  /\ strings.TrimSpace "   " = ""
  /\ strings.TrimLeft "/** * doc */" "*/
 " = "doc */"
  /\ strings.TrimPrefix ".com.example.Model" "." = "com.example.Model"
  /\ strings.TrimPrefix "com.example.Model" "org." = "com.example.Model"
  /\ strings.HasSuffix "Vehicle.PropertiesEntry" "Entry" = true
  /\ strings.ToLower "LABEL_REPEATED" = "label_repeated".
Proof. repeat split; reflexivity. Qed.

Example Directive_ex :
  let d := newDirective ("Does X." +:+ regexp.newline +:+ "@exclude"
                         +:+ regexp.newline +:+ "@title   Foo  ") in
  Title d = ("Foo", mkDirective ("Does X." +:+ regexp.newline +:+ "@exclude"
                                 +:+ regexp.newline) "" "" "Foo")
  /\ fst (Exclude (snd (Title d))) = true
  /\ Descrition (snd (Exclude (snd (Title d))))
     = "Does X." +:+ regexp.newline +:+ regexp.newline.
Proof. repeat split; reflexivity. Qed.

Example Sprint_int32_ex :
  Sprint_int32 0 = "0" /\ Sprint_int32 42 = "42" /\ Sprint_int32 (-7) = "-7".
Proof. repeat split; reflexivity. Qed.

(** ** Label resolution *)

(** C5. [labelName] is the empty string for a proto3 field that is
    neither explicitly optional nor repeated, "repeated" for a repeated
    proto3 field, and under proto2 or with the explicit-optional marker
    the label's name without "LABEL_" in lower case, which is one of
    "optional", "required" and "repeated". *)
Theorem labelName_spec (lbl : FieldDescriptorProto_Label) (proto3Opt : bool) :
  let lowered := strings.ToLower (strings.TrimPrefix (Label_String lbl) "LABEL_") in
  labelName lbl true false
    = (if Label_eqb lbl LABEL_REPEATED then "repeated" else "")
  /\ labelName LABEL_REPEATED true proto3Opt = "repeated"
  /\ labelName lbl false proto3Opt = lowered
  /\ labelName lbl true true = lowered
  /\ lowered = match lbl with
               | LABEL_OPTIONAL => "optional"
               | LABEL_REQUIRED => "required"
               | LABEL_REPEATED => "repeated"
               end.
Proof.
  destruct lbl, proto3Opt; repeat split; reflexivity.
Qed.

(** ** Option merging *)

Section MergeOptions.
Context {V : Type}.
Implicit Types (out m : gmap string V) (opts : list (gmap string V)).

(** The two nested loops add to [out] the keys it lacks: a union that
    prefers [out], in whatever order the map is ranged over. *)
Lemma mergeInto_union out m : mergeInto out m = out ∪ m.
Proof.
  unfold mergeInto.
  apply (map_fold_weak_ind (fun r m' => r = out ∪ m')).
  - symmetry. apply (right_id_L ∅ (∪)).
  - intros k v m' r Hk ->.
    destruct ((out ∪ m') !! k) as [w|] eqn:Hl.
    + apply lookup_union_Some_raw in Hl as [Hl | [_ Hl]]; [|congruence].
      apply map_eq; intros j. rewrite !lookup_union.
      destruct (decide (k = j)) as [<-|Hne].
      * by rewrite Hl, lookup_insert_eq, Hk.
      * by rewrite lookup_insert_ne.
    + apply lookup_union_None in Hl as [Hl _].
      by rewrite insert_union_r.
Qed.

Lemma foldl_mergeInto_lookup opts out k :
  foldl mergeInto out opts !! k
  = match out !! k with Some v => Some v | None => firstValue k opts end.
Proof.
  revert out; induction opts as [|m opts IH]; intros out; simpl.
  - by destruct (out !! k).
  - rewrite IH, mergeInto_union, lookup_union.
    destruct (out !! k), (m !! k); simpl; reflexivity.
Qed.

Lemma firstValue_None opts :
  (forall k, firstValue k opts = None) <-> Forall (fun m => m = ∅) opts.
Proof.
  induction opts as [|m opts IH]; simpl.
  - split; [constructor | done].
  - split.
    + intros H. constructor.
      * apply map_eq; intros k. specialize (H k).
        rewrite lookup_empty. by destruct (m !! k).
      * apply IH; intros k. specialize (H k). by destruct (m !! k).
    + intros H k. inversion H as [|? ? -> Hrest]; subst.
      rewrite lookup_empty. by apply IH.
Qed.

Lemma mergeOptions_lookup opts :
  match mergeOptions opts with
  | Some out => (forall k, out !! k = firstValue k opts) /\ out <> ∅
  | None => forall k, firstValue k opts = None
  end.
Proof.
  unfold mergeOptions.
  assert (Hl : forall k, foldl mergeInto ∅ opts !! k = firstValue k opts).
  { intros k. by rewrite foldl_mergeInto_lookup, lookup_empty. }
  destruct (decide (size (foldl mergeInto ∅ opts) = 0%nat)) as [Hz|Hnz].
  - apply map_size_empty_iff in Hz. intros k.
    specialize (Hl k). by rewrite Hz, lookup_empty in Hl.
  - split; [exact Hl|]. intros Hz. by rewrite Hz, map_size_empty in Hnz.
Qed.
End MergeOptions.

(** C3. Merging option maps given in priority order maps every key to
    the value of the earliest map that defines it; the result is absent
    (nil), never an empty map, exactly when no map contributes a key;
    and declared options {deprecated: true} merged with extension
    options {deprecated: false, owner: "x"} give
    {deprecated: true, owner: "x"}. *)
Theorem mergeOptions_first_wins :
  (forall (V : Type) (opts : list (gmap string V)),
      match mergeOptions opts with
      | Some out => (forall k, out !! k = firstValue k opts) /\ out <> ∅
      | None => forall k, firstValue k opts = None
      end
      /\ (mergeOptions opts = None <-> Forall (fun m => m = ∅) opts))
  /\ mergeOptions
       [ {[ "deprecated" := VBool true ]} ;
         {[ "deprecated" := VBool false; "owner" := VString "x" ]} ]
     = Some ({[ "deprecated" := VBool true; "owner" := VString "x" ]}
             : gmap string (value unit)).
Proof.
  split.
  - intros V opts. pose proof (mergeOptions_lookup opts) as H.
    split; [exact H|].
    rewrite <- firstValue_None.
    destruct (mergeOptions opts) as [out|]; [|done].
    destruct H as [Hl Hne]. split; [done|].
    intros Hnone. exfalso. apply Hne, map_eq; intros k.
    by rewrite Hl, Hnone, lookup_empty.
  - vm_compute. reflexivity.
Qed.

(** ** Directives *)

(** C8. From the comment ["Does X.\n@exclude\n@title Foo"] directive
    extraction yields exclude = true and title = "Foo", and the
    description it leaves holds neither "@exclude" nor "@title": on a
    directive queried as [parseServiceMethod] does, and in the method and
    the service records built from that comment. *)
Theorem directive_round_trip `{host : Host} :
  (let d0 := newDirective (description roundTripComment) in
   let '(action, d1) := Action d0 in
   let '(version, d2) := Version d1 in
   let '(title, d3) := Title d2 in
   let '(exclude, d4) := Exclude d3 in
   exclude = true /\ title = "Foo" /\ action = "" /\ version = ""
   /\ strings.Contains (Descrition d4) "@exclude" = false
   /\ strings.Contains (Descrition d4) "@title" = false)
  /\ (forall name input output pkg cs ss opts exts,
        let m := parseServiceMethod
                   (mkMethodDescriptor name roundTripComment input output pkg
                                       cs ss opts exts) in
        ServiceMethod_Exclude m = true
        /\ ServiceMethod_Title m = "Foo"
        /\ strings.Contains (ServiceMethod_Description m) "@exclude" = false
        /\ strings.Contains (ServiceMethod_Description m) "@title" = false)
  /\ (forall name long full deprecated exts methods,
        let s := parseService
                   (mkServiceDescriptor name long full roundTripComment
                                        deprecated exts methods) in
        Service_Exclude s = true
        /\ Service_Title s = "Foo"
        /\ strings.Contains (Service_Description s) "@exclude" = false
        /\ strings.Contains (Service_Description s) "@title" = false).
Proof.
  split; [|split].
  - vm_compute. repeat split; reflexivity.
  - intros. subst m. repeat split; vm_compute; reflexivity.
  - intros. subst s. repeat split; vm_compute; reflexivity.
Qed.

(** A value in the cache is answered as it is, a call that answers a
    value leaves it in the cache, and no accessor touches the cache of
    another or empties its own. *)
Lemma call_cached (acc : cachedAccessor) (d : Directive) :
  cacheOf acc d <> "" -> call acc d = (cacheOf acc d, d).
Proof.
  intros Hv. destruct acc; simpl in *; unfold Title, Action, Version.
  - by destruct (String.eqb_spec (title d) "").
  - by destruct (String.eqb_spec (action d) "").
  - by destruct (String.eqb_spec (version d) "").
Qed.

Lemma call_fills (acc : cachedAccessor) (d : Directive) :
  fst (call acc d) <> "" -> cacheOf acc (snd (call acc d)) = fst (call acc d).
Proof.
  destruct acc; simpl; unfold Title, Action, Version.
  - destruct (negb (title d =? "")%string); [done|].
    by destruct (scanTag titleRegex "@title" (Descrition d)).
  - destruct (negb (action d =? "")%string); [done|].
    by destruct (scanTag actionRegex "@action" (Descrition d)).
  - destruct (negb (version d =? "")%string); [done|].
    by destruct (scanTag versionRegex "@version" (Descrition d)).
Qed.

Lemma after_keeps_cache (acc : cachedAccessor) (a : accessor) (d : Directive) :
  cacheOf acc d <> "" -> cacheOf acc (after a d) = cacheOf acc d.
Proof.
  intros Hv. destruct a as [|a]; simpl.
  - unfold Exclude. destruct (strings.Contains _ _); by destruct acc.
  - destruct a; simpl; unfold Title, Action, Version.
    + destruct (String.eqb_spec (title d) ""); simpl; [|done].
      destruct (scanTag titleRegex "@title" (Descrition d)).
      destruct acc; simpl in *; congruence.
    + destruct (String.eqb_spec (action d) ""); simpl; [|done].
      destruct (scanTag actionRegex "@action" (Descrition d)).
      destruct acc; simpl in *; congruence.
    + destruct (String.eqb_spec (version d) ""); simpl; [|done].
      destruct (scanTag versionRegex "@version" (Descrition d)).
      destruct acc; simpl in *; congruence.
Qed.

Lemma afterAll_keeps_cache (acc : cachedAccessor) (calls : list accessor)
    (d : Directive) :
  cacheOf acc d <> "" -> cacheOf acc (afterAll calls d) = cacheOf acc d.
Proof.
  revert d. induction calls as [|a calls IH]; intros d Hv; [done|].
  change (afterAll (a :: calls) d) with (afterAll calls (after a d)).
  pose proof (after_keeps_cache acc a d Hv) as Ha.
  rewrite IH; congruence.
Qed.

(** C2, as the program has it. [Title], [Action] and [Version] cache a
    value that is not empty: once a call has returned one, a later call
    to the same accessor returns it again and leaves the directive, its
    description included, as it finds it, whatever calls to [Exclude],
    [Title], [Action] and [Version] were made in between. *)
Theorem Directive_cached (acc : cachedAccessor) (d : Directive)
    (calls : list accessor) :
  fst (call acc d) <> "" ->
  let later := afterAll calls (snd (call acc d)) in
  call acc later = (fst (call acc d), later).
Proof.
  intros Hv later.
  pose proof (call_fills acc d Hv) as Hfilled.
  assert (Hkept : cacheOf acc later = fst (call acc d)).
  { unfold later. rewrite afterAll_keeps_cache; congruence. }
  rewrite call_cached; congruence.
Qed.

(** [Title], then [Action], [Exclude] and [Version], then [Title] again. *)
Lemma Directive_cached_witness :
  let d := newDirective ("Lists models. @exclude" +:+ regexp.newline
                         +:+ "@title Models" +:+ regexp.newline
                         +:+ "@action list") in
  let later := afterAll [AccCached AccAction; AccExclude; AccCached AccVersion]
                        (snd (call AccTitle d)) in
  fst (call AccTitle d) = "Models"
  /\ fst (call AccAction (snd (call AccTitle d))) = "list"
  /\ call AccTitle later = ("Models", later).
Proof.
  split; [reflexivity|]. split; [reflexivity|].
  apply (Directive_cached AccTitle
           (newDirective ("Lists models. @exclude" +:+ regexp.newline
                          +:+ "@title Models" +:+ regexp.newline
                          +:+ "@action list"))
           [AccCached AccAction; AccExclude; AccCached AccVersion]).
  vm_compute. discriminate.
Defined.

(** C2 fails as stated: [Exclude] keeps no cache, so after a first call
    that finds and removes the tag a second call answers [false]; and an
    empty title is not cached, so a second [Title] scans again and can
    find another value and cut the description further. *)
Lemma Directive_repeated_call_differs :
  (let d := newDirective "Hidden. @exclude" in
   fst (Exclude d) = true /\ fst (Exclude (snd (Exclude d))) = false)
  /\ (let d := newDirective ("@title  " +:+ regexp.newline +:+ "x @title Late") in
      let d1 := snd (Title d) in
      fst (Title d) = "" /\ fst (Title d1) = "Late"
      /\ Descrition (snd (Title d1)) <> Descrition d1).
Proof.
  split; vm_compute; repeat split; discriminate.
Qed.

(** ** Strings *)

Section StringLemmas.
Implicit Types s p r t : string.

Lemma append_nil_l s : "" +:+ s = s.
Proof. reflexivity. Qed.

Lemma append_cons c s t : String c s +:+ t = String c (s +:+ t).
Proof. reflexivity. Qed.

Lemma append_nil_r s : s +:+ "" = s.
Proof.
  induction s as [|c s IH]; [done|]. by rewrite append_cons, IH.
Qed.

Lemma append_assoc s t r : (s +:+ t) +:+ r = s +:+ (t +:+ r).
Proof.
  induction s as [|c s IH]; [done|]. by rewrite !append_cons, IH.
Qed.

Lemma length_append s t :
  String.length (s +:+ t) = (String.length s + String.length t)%nat.
Proof.
  induction s as [|c s IH]; [done|]. rewrite append_cons. simpl. by rewrite IH.
Qed.

Lemma drop_append s t : strings.drop (String.length s) (s +:+ t) = t.
Proof.
  induction s as [|c s IH]; [done|]. rewrite append_cons. simpl. by rewrite IH.
Qed.

Lemma take_append s t : strings.take (String.length s) (s +:+ t) = s.
Proof.
  induction s as [|c s IH]; [done|]. rewrite append_cons. simpl. by rewrite IH.
Qed.

Lemma take_drop n s : strings.take n s +:+ strings.drop n s = s.
Proof.
  revert s; induction n as [|n IH]; intros [|c s]; simpl; try done.
  by rewrite append_cons, IH.
Qed.

Lemma length_take n s :
  (n <= String.length s)%nat -> String.length (strings.take n s) = n.
Proof.
  revert s; induction n as [|n IH]; intros [|c s]; simpl; try done; try lia.
  intros H. rewrite IH; lia.
Qed.

Lemma length_drop n s :
  String.length (strings.drop n s) = (String.length s - n)%nat.
Proof.
  revert s; induction n as [|n IH]; intros [|c s]; simpl; try done.
Qed.

Lemma drop_drop n k s :
  strings.drop n (strings.drop k s) = strings.drop (k + n) s.
Proof.
  revert s; induction k as [|k IH]; intros [|c s]; simpl; try done.
  by destruct n.
Qed.

Lemma HasPrefix_nil s : strings.HasPrefix s "" = true.
Proof. by destruct s. Qed.

Lemma HasPrefix_append p r : strings.HasPrefix (p +:+ r) p = true.
Proof.
  induction p as [|c p IH]; [apply HasPrefix_nil|].
  rewrite append_cons. simpl. by rewrite Ascii.eqb_refl, IH.
Qed.

Lemma HasPrefix_true s p :
  strings.HasPrefix s p = true -> s = p +:+ strings.drop (String.length p) s.
Proof.
  revert s; induction p as [|c p IH]; intros s.
  - done.
  - destruct s as [|d s]; [done|]. simpl.
    intros [Hc Hp]%andb_true_iff.
    apply Ascii.eqb_eq in Hc as ->. rewrite append_cons. f_equal. by apply IH.
Qed.

Lemma HasPrefix_iff s p :
  strings.HasPrefix s p = true <-> exists r, s = p +:+ r.
Proof.
  split.
  - intros H. eexists. by apply HasPrefix_true.
  - intros [r ->]. apply HasPrefix_append.
Qed.

Lemma TrimPrefix_true s p :
  strings.HasPrefix s p = true -> s = p +:+ strings.TrimPrefix s p.
Proof.
  intros H. unfold strings.TrimPrefix. rewrite H. by apply HasPrefix_true.
Qed.

Lemma TrimPrefix_false s p :
  strings.HasPrefix s p = false -> strings.TrimPrefix s p = s.
Proof. intros H. unfold strings.TrimPrefix. by rewrite H. Qed.

Lemma append_longer s p : p <> "" -> s <> p +:+ s.
Proof.
  intros Hp Heq. apply (f_equal String.length) in Heq.
  rewrite length_append in Heq. destruct p; [done|]. simpl in Heq. lia.
Qed.
Lemma Index_unfold s t :
  strings.Index s t
  = if strings.HasPrefix s t then 0
    else match s with
         | "" => -1
         | String _ s' =>
             if strings.Index s' t <? 0 then -1 else strings.Index s' t + 1
         end.
Proof. by destruct s. Qed.

Lemma rev_append s t : strings.rev (s +:+ t) = strings.rev t +:+ strings.rev s.
Proof.
  induction s as [|c s IH].
  - rewrite append_nil_l. simpl. by rewrite append_nil_r.
  - rewrite append_cons. simpl. by rewrite IH, append_assoc.
Qed.

Lemma rev_involutive s : strings.rev (strings.rev s) = s.
Proof.
  induction s as [|c s IH]; [done|]. simpl. by rewrite rev_append, IH.
Qed.


Lemma HasSuffix_true s t :
  strings.HasSuffix s t = true -> exists r, s = r +:+ t.
Proof.
  unfold strings.HasSuffix. intros [r Hr]%HasPrefix_iff.
  exists (strings.rev r).
  by rewrite <- (rev_involutive s), Hr, rev_append, rev_involutive.
Qed.


Lemma Index_found r t x : 0 <= strings.Index (r +:+ t +:+ x) t.
Proof.
  induction r as [|c r IH].
  - rewrite append_nil_l, Index_unfold, HasPrefix_append. lia.
  - rewrite append_cons, Index_unfold.
    destruct (strings.HasPrefix _ t); [lia|].
    destruct (Z.ltb_spec (strings.Index (r +:+ t +:+ x) t) 0); lia.
Qed.

End StringLemmas.

(** ** Map fields *)

Section MapFields.
Context {host : Host}.

(** [parseMessageField] returns unless the field names a oneof that
    the message does not declare. *)
Lemma parseMessageField_total pf oneofDecls :
  match fp_OneofIndex (fd_Proto pf) with
  | Some i => 0 <= i < Z.of_nat (length oneofDecls)
  | None => True
  end ->
  is_Some (parseMessageField pf oneofDecls).
Proof.
  intros Hi. unfold parseMessageField.
  destruct (parseType pf) as [[t lt] ft].
  destruct (fp_OneofIndex (fd_Proto pf)) as [i|]; simpl; [|eauto].
  unfold index. destruct (Z.ltb_spec i 0) as [|_]; [lia|].
  destruct (lookup_lt_is_Some_2 oneofDecls (Z.to_nat i)) as [x ->]; [lia|].
  simpl. eauto.
Qed.
End MapFields.



(** The map field [properties] of [Vehicle], and fields that differ from
    the one above in the type, in the label, or in the nesting. *)
Example parseMessageField_IsMap_Entry :
  MessageField_IsMap <$>
    parseMessageField (host := exampleHost)
      (exampleField "properties" LABEL_REPEATED TYPE_MESSAGE
                    ".com.example.Vehicle.PropertiesEntry") []
  = Some true
  /\ MessageField_IsMap <$>
       parseMessageField (host := exampleHost)
         (exampleField "index" LABEL_REPEATED TYPE_MESSAGE ".com.example.Vehicle.Engine") []
     = Some false
  /\ MessageField_IsMap <$>
       parseMessageField (host := exampleHost)
         (exampleField "index" LABEL_OPTIONAL TYPE_MESSAGE ".com.example.Vehicle.Entry") []
     = Some false
  /\ MessageField_IsMap <$>
       parseMessageField (host := exampleHost)
         (exampleField "index" LABEL_REPEATED TYPE_MESSAGE ".com.example.Entry") []
     = Some false.
Proof. repeat split; vm_compute; reflexivity. Qed.

(** ** Long and full names *)

Section Names.
Context {host : Host}.


Lemma TrimPrefix_dot s : strings.TrimPrefix (String "." s) "." = s.
Proof.
  unfold strings.TrimPrefix. simpl. by rewrite HasPrefix_nil.
Qed.

Lemma TrimPrefix_dot_package ref P :
  let long := strings.TrimPrefix ref ("." +:+ P +:+ ".") in
  let full := strings.TrimPrefix ref "." in
  (strings.HasPrefix ref ("." +:+ P +:+ ".") = true -> full = P +:+ "." +:+ long)
  /\ (strings.HasPrefix ref ("." +:+ P +:+ ".") = false -> long = ref).
Proof.
  simpl. split; [|apply TrimPrefix_false].
  intros H. pose proof (TrimPrefix_true _ _ H) as Href.
  set (long := strings.TrimPrefix ref ("." +:+ P +:+ ".")) in *.
  rewrite Href.
  change ("." +:+ P +:+ ".") with (String "." (P +:+ ".")).
  by rewrite append_cons, TrimPrefix_dot, append_assoc.
Qed.
End Names.




(** The prefix decides, not the package the type belongs to: a type of
    a sub-package of [P] loses the prefix [P.] as well, and in a file
    without a package nothing is stripped from a reference. *)
Lemma long_type_by_prefix :
  parseType (exampleField "thing" LABEL_OPTIONAL TYPE_MESSAGE ".com.example.sub.Thing")
  = ("Thing", "sub.Thing", "com.example.sub.Thing")
  /\ parseType (mkFieldDescriptor (host := exampleHost)
                  {| fp_Name := "req"; fp_LongName := "req"; fp_FullName := "req";
                     fp_Comments := ""; fp_Label := LABEL_OPTIONAL;
                     fp_Type := TYPE_MESSAGE; fp_TypeName := ".Req";
                     fp_Package := ""; fp_IsProto3 := true;
                     fp_Proto3Optional := false; fp_Number := 1;
                     fp_DefaultValue := ""; fp_Extendee := "";
                     fp_OneofIndex := None; fp_Deprecated := false;
                     fp_OptionExtensions := ∅ |})
     = ("Req", "Req", "Req").
Proof. split; vm_compute; reflexivity. Qed.

(** ** The sort of the example host *)

Section StringOrder.
Implicit Types a b c : string.

Lemma ltb_false_leb a b : String.ltb b a = false <-> String.leb a b = true.
Proof.
  unfold String.ltb, String.leb. rewrite (String.compare_antisym a b).
  destruct (String.compare b a); simpl; split; congruence.
Qed.

Lemma ltb_asym a b : String.ltb a b = true -> String.ltb b a = false.
Proof.
  unfold String.ltb. rewrite (String.compare_antisym a b).
  destruct (String.compare b a); simpl; congruence.
Qed.

Lemma ltb_false_trans a b c :
  String.ltb b a = false -> String.ltb c b = false -> String.ltb c a = false.
Proof.
  rewrite !ltb_false_leb. intros Hab Hbc.
  apply Is_true_true. apply Is_true_true in Hab, Hbc.
  exact (transitivity (R := String.le) Hab Hbc).
Qed.
End StringOrder.

Section SortProofs.
Context {A : Type} (Less : A -> A -> bool).
Implicit Types data p s : list A.

Local Abbreviation ordered := (sort.ordered Less).

Hypothesis Less_asym : forall x y, Less x y = true -> Less y x = false.
Hypothesis Less_false_trans : forall x y z,
  Less y x = false -> Less z y = false -> Less z x = false.

Lemma Swap_perm i j data : data ≡ₚ sort.Swap i j data.
Proof.
  unfold sort.Swap.
  destruct (data !! i) as [x|] eqn:Hi; [|done].
  destruct (data !! j) as [y|] eqn:Hj; [|done].
  apply Permutation_inj. split; [by rewrite !length_insert|].
  exists (fun k => if decide (k = i) then j else if decide (k = j) then i else k).
  split.
  - intros k1 k2. repeat case_decide; congruence.
  - intros k. pose proof (lookup_lt_Some _ _ _ Hi). pose proof (lookup_lt_Some _ _ _ Hj).
    rewrite !list_lookup_insert, !length_insert.
    repeat case_decide; subst; try congruence; try lia; naive_solver.
Qed.

Lemma sink_perm j data : sort.sink Less j data ≡ₚ data.
Proof.
  revert data. induction j as [|j IH]; intros data; simpl; [done|].
  destruct (sort.LessAt Less (S j) j data); [|done].
  rewrite IH. symmetry. apply Swap_perm.
Qed.

Lemma insertionSort_perm data : sort.insertionSort Less data ≡ₚ data.
Proof.
  unfold sort.insertionSort. generalize (seq 1 (length data - 1)). intros idxs.
  revert data. induction idxs as [|i idxs IH]; intros data; simpl; [done|].
  rewrite IH. apply sink_perm.
Qed.

Lemma shellPass_perm data : sort.shellPass Less data ≡ₚ data.
Proof.
  unfold sort.shellPass. generalize (seq 6 (length data - 6)). intros idxs.
  revert data. induction idxs as [|i idxs IH]; intros data; simpl; [done|].
  rewrite IH. destruct (sort.LessAt Less i (i - 6) data); [|done].
  symmetry. apply Swap_perm.
Qed.

Lemma Sort_perm data : data ≡ₚ sort.Sort Less data.
Proof.
  unfold sort.Sort. by rewrite insertionSort_perm, shellPass_perm.
Qed.

Lemma Swap_adjacent p x y s :
  sort.Swap (S (length p)) (length p) (p ++ y :: x :: s) = p ++ x :: y :: s.
Proof.
  unfold sort.Swap.
  rewrite (list_lookup_middle p (x :: s) y (length p)) by done.
  replace (p ++ y :: x :: s) with ((p ++ [y]) ++ x :: s) at 1
    by by rewrite <- app_assoc.
  rewrite (list_lookup_middle (p ++ [y]) s x) by (rewrite length_app; simpl; lia).
  replace (p ++ y :: x :: s) with ((p ++ [y]) ++ x :: s)
    by by rewrite <- app_assoc.
  rewrite (insert_app_r_alt (p ++ [y])) by (rewrite length_app; simpl; lia).
  replace (S (length p) - length (p ++ [y]))%nat with 0%nat
    by (rewrite length_app; simpl; lia).
  simpl. rewrite <- app_assoc. simpl.
  rewrite insert_app_r_alt by lia.
  replace (length p - length p)%nat with 0%nat by lia. done.
Qed.

Lemma LessAt_adjacent p x y s :
  sort.LessAt Less (S (length p)) (length p) (p ++ y :: x :: s) = Less x y.
Proof.
  unfold sort.LessAt.
  rewrite (list_lookup_middle p (x :: s) y (length p)) by done.
  replace (p ++ y :: x :: s) with ((p ++ [y]) ++ x :: s)
    by by rewrite <- app_assoc.
  by rewrite (list_lookup_middle (p ++ [y]) s x) by (rewrite length_app; simpl; lia).
Qed.

(** The inner loop of [insertionSort] puts the element after a sorted
    prefix in its place. *)
Lemma sink_sorted p x s :
  StronglySorted ordered p ->
  exists p', sort.sink Less (length p) (p ++ x :: s) = p' ++ s
             /\ p' ≡ₚ p ++ [x] /\ StronglySorted ordered p'.
Proof.
  revert x s. induction p as [|y q IH] using rev_ind; intros x s Hp.
  - exists [x]. repeat split; [done|]. repeat constructor.
  - rewrite length_app, Nat.add_1_r. simpl.
    rewrite <- app_assoc. simpl. rewrite LessAt_adjacent.
    apply StronglySorted_app in Hp as (Hqy & Hq & _).
    destruct (Less x y) eqn:Hxy.
    + rewrite Swap_adjacent.
      destruct (IH x (y :: s) Hq) as (q' & -> & Hperm & Hsorted).
      exists (q' ++ [y]). split; [by rewrite <- app_assoc|]. split.
      * rewrite Hperm, <- !app_assoc. apply Permutation_app_head, perm_swap.
      * apply StronglySorted_app. split; [|split; [done|repeat constructor]].
        intros z1 z2 Hz1 ->%list_elem_of_singleton.
        rewrite Hperm in Hz1. apply elem_of_app in Hz1 as [Hz1 | ->%list_elem_of_singleton].
        -- apply Hqy; [done|]. by apply list_elem_of_singleton.
        -- by apply Less_asym.
    + exists (q ++ [y; x]). split; [by rewrite <- app_assoc|]. split.
      * by rewrite <- app_assoc.
      * apply StronglySorted_app. split; [|split; [done|]].
        -- intros z1 z2 Hz1 Hz2.
           assert (ordered z1 y) as Hz1y
             by (apply Hqy; [done|by apply list_elem_of_singleton]).
           apply elem_of_cons in Hz2 as [-> | ->%list_elem_of_singleton]; [done|].
           exact (Less_false_trans _ _ _ Hz1y Hxy).
        -- repeat constructor. exact Hxy.
Qed.

Lemma insertionSort_from p s :
  StronglySorted ordered p ->
  exists r, foldl (fun data i => sort.sink Less i data) (p ++ s)
              (seq (length p) (length s)) = r
            /\ r ≡ₚ p ++ s /\ StronglySorted ordered r.
Proof.
  revert p. induction s as [|x s IH]; intros p Hp; simpl.
  - exists p. by rewrite app_nil_r.
  - destruct (sink_sorted p x s Hp) as (p' & -> & Hperm & Hsorted).
    assert (length p' = S (length p)) as Hlen.
    { rewrite Hperm, length_app. simpl. lia. }
    destruct (IH p' Hsorted) as (r & Hr & Hrperm & Hrsorted).
    exists r. rewrite <- Hlen. split; [done|]. split; [|done].
    rewrite Hrperm, Hperm, <- app_assoc. done.
Qed.

Lemma insertionSort_sorted data :
  StronglySorted ordered (sort.insertionSort Less data).
Proof.
  unfold sort.insertionSort. destruct data as [|x s]; simpl.
  - constructor.
  - rewrite Nat.sub_0_r.
    destruct (insertionSort_from [x] s) as (r & Hr & Hperm & Hsorted).
    { repeat constructor. }
    simpl in Hr. by rewrite Hr.
Qed.

Lemma Sort_sorted data : StronglySorted ordered (sort.Sort Less data).
Proof. apply insertionSort_sorted. Qed.
End SortProofs.

Lemma exampleHost_SortContract : SortContract exampleHost.
Proof.
  split.
  - intros A less l. apply Sort_perm.
  - intros A key l. simpl.
    apply (Sort_sorted (fun x y => String.ltb (key x) (key y))).
    + intros x y. apply ltb_asym.
    + intros x y z. apply ltb_false_trans.
Qed.

(** ** The traversal *)

Section Walk.
Context {host : Host}.

Lemma appendEach_map {A B} (f : A -> B) xs acc :
  appendEach f xs acc = acc ++ map f xs.
Proof.
  unfold appendEach. revert acc.
  induction xs as [|x xs IH]; intros acc; simpl.
  - by rewrite app_nil_r.
  - by rewrite IH, <- app_assoc.
Qed.

Lemma appendEachM_mapM {A B} (f : A -> option B) xs acc :
  appendEachM f xs acc = ys ← mapM f xs; Some (acc ++ ys).
Proof.
  revert acc. induction xs as [|x xs IH]; intros acc; simpl.
  - by rewrite app_nil_r.
  - destruct (f x) as [y|]; simpl; [|done].
    rewrite IH. destruct (mapM f xs) as [ys|]; simpl; [|done].
    by rewrite <- app_assoc.
Qed.

Lemma mapM_app {A B} (f : A -> option B) xs ys :
  mapM f (xs ++ ys) = xs' ← mapM f xs; ys' ← mapM f ys; Some (xs' ++ ys').
Proof.
  induction xs as [|x xs IH]; simpl.
  - by destruct (mapM f ys).
  - destruct (f x) as [y|]; simpl; [|done].
    rewrite IH. destruct (mapM f xs) as [xs'|]; simpl; [|done].
    by destruct (mapM f ys).
Qed.

Lemma Descriptor_nested_ind (P : Descriptor -> Prop) :
  (forall m, Forall P (md_Messages m) -> P m) -> forall m, P m.
Proof.
  intros H. fix IH 1. intros m. apply H.
  destruct m as [? ? ? ? ? ? ? ? ? ? ms]. simpl.
  induction ms as [|n ms IHms]; constructor; [apply IH | apply IHms].
Qed.

Lemma addFromMessage_unfold m st :
  addFromMessage m st
  = msg ← parseMessage m;
    forEachM addFromMessage (md_Messages m)
             (st.1 ++ [msg], appendEach parseEnum (md_Enums m) st.2).
Proof. by destruct m. Qed.

Lemma walked_app ms1 ms2 st :
  walked (ms1 ++ ms2) st = st' ← walked ms1 st; walked ms2 st'.
Proof.
  unfold walked. rewrite mapM_app, flat_map_app, map_app.
  destruct (mapM parseMessage ms1) as [r1|]; simpl; [|done].
  destruct (mapM parseMessage ms2) as [r2|]; simpl; [|done].
  by rewrite !app_assoc.
Qed.

Lemma forEachM_walked ms st :
  Forall (fun m => forall st, addFromMessage m st = walked (preorder m) st) ms ->
  forEachM addFromMessage ms st = walked (flat_map preorder ms) st.
Proof.
  intros Hms. revert st. induction Hms as [|m ms Hm _ IH]; intros st; simpl.
  - unfold walked. simpl. by rewrite !app_nil_r, <- surjective_pairing.
  - change (m :: flat_map preorder (md_Messages m)) with (preorder m).
    rewrite walked_app, Hm.
    destruct (walked (preorder m) st) as [st'|]; simpl; [apply IH|done].
Qed.

Lemma addFromMessage_walked m st :
  addFromMessage m st = walked (preorder m) st.
Proof.
  revert st. induction m as [m IH] using Descriptor_nested_ind. intros st.
  rewrite addFromMessage_unfold.
  replace (preorder m) with (m :: flat_map preorder (md_Messages m))
    by by destruct m.
  change (m :: flat_map preorder (md_Messages m))
    with ([m] ++ flat_map preorder (md_Messages m)).
  rewrite walked_app. unfold walked at 2. simpl.
  destruct (parseMessage m) as [msg|]; simpl; [|done].
  rewrite (forEachM_walked _ _ IH), appendEach_map, !app_nil_r. done.
Qed.

Lemma parseMessage_total m : oneofsDeclared m -> is_Some (parseMessage m).
Proof.
  intros Hm. unfold parseMessage. destruct (Exclude _) as [e d].
  rewrite appendEachM_mapM.
  destruct (mapM_is_Some_2 (fun f => parseMessageField f (md_OneofDecl m))
              (md_Fields m)) as [fields ->]; [|simpl; eauto].
  eapply Forall_impl; [exact Hm|]. intros pf Hpf.
  by apply parseMessageField_total.
Qed.

Lemma discover_spec f :
  discover f
  = recs ← mapM parseMessage (messagesOf f);
    Some {| found_Enums := map parseEnum (enumsOf f);
            found_Extensions := map parseFileExtension (file_Extensions f);
            found_Messages := recs;
            found_Services := map parseService (file_Services f) |}.
Proof.
  unfold discover. rewrite forEachM_walked
    by (apply Forall_forall; intros m _ st; apply addFromMessage_walked).
  unfold walked, messagesOf, enumsOf. simpl.
  destruct (mapM parseMessage (flat_map preorder (file_Messages f))) as [recs|];
    simpl; [|done].
  by rewrite !appendEach_map, map_app.
Qed.
Lemma NewTemplate_file_total f :
  Forall oneofsDeclared (messagesOf f) -> is_Some (NewTemplate_file f).
Proof.
  intros Hf. unfold NewTemplate_file. rewrite discover_spec.
  destruct (mapM_is_Some_2 parseMessage (messagesOf f)) as [recs ->];
    [|simpl; eauto].
  eapply Forall_impl; [exact Hf|]. apply parseMessage_total.
Qed.

(** [NewTemplate] returns on descriptors whose oneof indices are in
    range. *)
Lemma NewTemplate_total `{resources : Resources} descs :
  Forall (fun f => Forall oneofsDeclared (messagesOf f)) descs ->
  is_Some (NewTemplate descs).
Proof.
  intros Hdescs. unfold NewTemplate. rewrite appendEachM_mapM.
  destruct (mapM_is_Some_2 NewTemplate_file descs) as [files ->].
  - eapply Forall_impl; [exact Hdescs|]. apply NewTemplate_file_total.
  - simpl. destruct makeScalars. eauto.
Qed.
End Walk.

(** C7. [addFromMessage] adds to the file's flat collections the record
    of its message and of every message nested in it at any depth, and
    the records of the enums declared directly in each of them, walking
    depth first, the parent before its children and siblings in
    declaration order; so a file holds one [Message] for each message
    descriptor and one [Enum] for each enum, and a message nested in
    another has its own record in [File.Messages], under its own long
    name. The walk returns whenever the oneof indices of the fields are
    in range. *)
Theorem addFromMessage_flattens `{host : Host} `{!SortContract host} :
  (forall m st, addFromMessage m st = walked (preorder m) st)
  /\ (forall f,
        discover f
        = recs ← mapM parseMessage (messagesOf f);
          Some {| found_Enums := map parseEnum (enumsOf f);
                  found_Extensions := map parseFileExtension (file_Extensions f);
                  found_Messages := recs;
                  found_Services := map parseService (file_Services f) |})
  /\ (forall f file,
        NewTemplate_file f = Some file ->
        length (File_Messages file) = length (messagesOf f)
        /\ length (File_Enums file) = length (enumsOf f)
        /\ (forall pe, pe ∈ enumsOf f -> parseEnum pe ∈ File_Enums file)
        /\ (forall pm, pm ∈ messagesOf f ->
            exists m, parseMessage pm = Some m /\ m ∈ File_Messages file
                      /\ Message_LongName m = md_LongName pm))
  /\ (forall f outer inner,
        outer ∈ file_Messages f -> inner ∈ md_Messages outer ->
        inner ∈ messagesOf f)
  /\ (forall f, Forall oneofsDeclared (messagesOf f) -> is_Some (NewTemplate_file f)).
Proof.
  split; [exact addFromMessage_walked|]. split; [exact discover_spec|].
  split; [|split; [|exact NewTemplate_file_total]].
  - intros f file. unfold NewTemplate_file. rewrite discover_spec.
    destruct (mapM parseMessage (messagesOf f)) as [recs|] eqn:Hrecs;
      simpl; [|done].
    intros [= <-]; simpl.
    pose proof (sort_Sort_perm Message orderedMessages_Less recs) as Hm.
    pose proof (sort_Sort_perm Enum orderedEnums_Less (map parseEnum (enumsOf f)))
      as He.
    split; [by rewrite <- Hm, <- (length_mapM _ _ _ Hrecs)|].
    split; [by rewrite <- He, length_map|].
    split.
    + intros pe Hpe. rewrite <- He. apply list_elem_of_fmap. eauto.
    + intros pm Hpm. apply mapM_Some in Hrecs.
      apply list_elem_of_lookup in Hpm as [i Hi].
      destruct (Forall2_lookup_l _ _ _ _ _ Hrecs Hi) as (m & Hm' & Hparse).
      exists m. split; [done|]. split.
      * rewrite <- Hm. by eapply list_elem_of_lookup_2.
      * revert Hparse. unfold parseMessage. destruct (Exclude _) as [e d].
        destruct (appendEachM _ _ _); simpl; [|done]. by intros [= <-].
  - intros f outer inner Houter Hinner. unfold messagesOf.
    apply list_elem_of_In, in_flat_map. exists outer.
    split; [by apply list_elem_of_In|].
    destruct outer; simpl in *. right.
    apply in_flat_map. exists inner. split; [by apply list_elem_of_In|].
    destruct inner; simpl. by left.
Qed.

Lemma addFromMessage_flattens_witness :
  exists file,
    NewTemplate_file (host := exampleHost) nestedFile = Some file
    /\ map Message_LongName (File_Messages file) = ["Outer"; "Outer.Inner"]
    /\ exists m, parseMessage innerMessage = Some m /\ m ∈ File_Messages file
                 /\ Message_LongName m = "Outer.Inner".
Proof.
  eexists. split; [vm_compute; reflexivity|]. split; [reflexivity|].
  destruct (addFromMessage_flattens (host := exampleHost)
              (SortContract0 := exampleHost_SortContract))
    as (_ & _ & Hfile & Hnested & _).
  refine (proj2 (proj2 (proj2 (Hfile nestedFile _ _))) innerMessage _).
  - vm_compute. reflexivity.
  - apply (Hnested nestedFile (exampleMessage "Outer" "Outer" [innerMessage])).
    + apply list_elem_of_singleton. reflexivity.
    + apply list_elem_of_singleton. reflexivity.
Defined.

(** ** The assembled files *)

Section Assembly.
Context {host : Host} {contract : SortContract host}.

Lemma sort_Sort_sortedByLongName {A} (LongName : A -> string) (l : list A) :
  sortedByLongName LongName
    (sort_Sort A (fun x y => String.ltb (LongName x) (LongName y)) l).
Proof.
  unfold sortedByLongName.
  pose proof (sort_Sort_sorted A LongName l) as Hs.
  induction Hs as [|x xs _ IH Hx]; constructor; [done|].
  eapply Forall_impl; [exact Hx|]. intros y. apply ltb_false_leb.
Qed.

Lemma parseMessage_Fields pm m :
  parseMessage pm = Some m ->
  mapM (fun pf => parseMessageField pf (md_OneofDecl pm)) (md_Fields pm)
  = Some (Message_Fields m)
  /\ Message_Extensions m = map parseMessageExtension (md_Extensions pm).
Proof.
  unfold parseMessage. destruct (Exclude _) as [e d].
  rewrite appendEachM_mapM, appendEach_map.
  destruct (mapM _ (md_Fields pm)) as [fields|]; simpl; [|done].
  by intros [= <-].
Qed.
End Assembly.

(** C1, as the program has it. In every [File] that [NewTemplate]
    produces, each of the four top-level collections is sorted
    non-decreasing by [LongName] in byte-wise lexicographic order and
    holds exactly the records found for the file's descriptors, each
    once; and the fields (and extensions) of a message, the values of an
    enum and the methods of a service are the descriptor's, in
    declaration order. *)
Theorem NewTemplate_collections `{host : Host} `{!SortContract host}
    `{resources : Resources} descs tpl printed :
  NewTemplate descs = Some (tpl, printed) ->
  Forall2
    (fun f file =>
       sortedByLongName Enum_LongName (File_Enums file)
       /\ sortedByLongName FileExtension_LongName (File_Extensions file)
       /\ sortedByLongName Message_LongName (File_Messages file)
       /\ sortedByLongName Service_LongName (File_Services file)
       /\ File_Enums file ≡ₚ map parseEnum (enumsOf f)
       /\ File_Extensions file ≡ₚ map parseFileExtension (file_Extensions f)
       /\ (exists recs, mapM parseMessage (messagesOf f) = Some recs
                        /\ File_Messages file ≡ₚ recs)
       /\ File_Services file ≡ₚ map parseService (file_Services f))
    descs (Files tpl)
  /\ (forall pe, Enum_Values (parseEnum pe) = map parseEnum_value (ed_Values pe))
  /\ (forall pm m,
        parseMessage pm = Some m ->
        mapM (fun pf => parseMessageField pf (md_OneofDecl pm)) (md_Fields pm)
        = Some (Message_Fields m)
        /\ Message_Extensions m = map parseMessageExtension (md_Extensions pm))
  /\ (forall ps, Service_Methods (parseService ps)
                 = map parseServiceMethod (sd_Methods ps)).
Proof.
  intros Hnew. split; [|split; [|split]].
  - unfold NewTemplate in Hnew. rewrite appendEachM_mapM in Hnew.
    destruct (mapM NewTemplate_file descs) as [files|] eqn:Hfiles;
      simpl in Hnew; [|done].
    destruct makeScalars as [scalars out]. injection Hnew as <- _. simpl.
    apply mapM_Some in Hfiles.
    eapply Forall2_impl; [exact Hfiles|]. intros f file.
    unfold NewTemplate_file. rewrite discover_spec.
    destruct (mapM parseMessage (messagesOf f)) as [recs|]; simpl; [|done].
    intros [= <-]; simpl.
    split; [exact (sort_Sort_sortedByLongName Enum_LongName _)|].
    split; [exact (sort_Sort_sortedByLongName FileExtension_LongName _)|].
    split; [exact (sort_Sort_sortedByLongName Message_LongName _)|].
    split; [exact (sort_Sort_sortedByLongName Service_LongName _)|].
    split; [symmetry; apply sort_Sort_perm|].
    split; [symmetry; apply sort_Sort_perm|].
    split; [|symmetry; apply sort_Sort_perm].
    exists recs. split; [done|]. symmetry. apply sort_Sort_perm.
  - intros pe. unfold parseEnum. destruct (Exclude _) as [e d]. simpl.
    by rewrite appendEach_map.
  - apply parseMessage_Fields.
  - intros ps. unfold parseService.
    destruct (Title _) as [t d1]. destruct (Exclude _) as [e d2]. simpl.
    by rewrite appendEach_map.
Qed.

Lemma NewTemplate_collections_witness :
  exists tpl,
    NewTemplate (host := exampleHost) (resources := emptyTableResources)
                [tiedFile; nestedFile] = Some (tpl, [])
    /\ map (fun file => map Enum_LongName (File_Enums file)) (Files tpl)
       = [["A"; "B"; "B"; "C"; "D"; "E"; "F"]; []]
    /\ Forall2
         (fun f file =>
            sortedByLongName Enum_LongName (File_Enums file)
            /\ sortedByLongName FileExtension_LongName (File_Extensions file)
            /\ sortedByLongName Message_LongName (File_Messages file)
            /\ sortedByLongName Service_LongName (File_Services file)
            /\ File_Enums file ≡ₚ map parseEnum (enumsOf f)
            /\ File_Extensions file ≡ₚ map parseFileExtension (file_Extensions f)
            /\ (exists recs, mapM parseMessage (messagesOf f) = Some recs
                             /\ File_Messages file ≡ₚ recs)
            /\ File_Services file ≡ₚ map parseService (file_Services f))
         [tiedFile; nestedFile] (Files tpl).
Proof.
  eexists. split; [vm_compute; reflexivity|]. split; [reflexivity|].
  refine (proj1 (NewTemplate_collections (host := exampleHost)
                   (SortContract0 := exampleHost_SortContract)
                   (resources := emptyTableResources)
                   [tiedFile; nestedFile] _ [] _)).
  vm_compute. reflexivity.
Defined.

(** C1 fails as stated: [sort.Sort] is not a stable sort. With the sort
    of the example host the second of two enums with the long name [B]
    comes to stand before the first. *)
Lemma ties_leave_discovery_order :
  exists found file,
    discover (host := exampleHost) tiedFile = Some found
    /\ NewTemplate_file (host := exampleHost) tiedFile = Some file
    /\ map Enum_Description (filter (fun e => Enum_LongName e = "B") (found_Enums found))
       = ["found first"; "found second"]
    /\ map Enum_Description (filter (fun e => Enum_LongName e = "B") (File_Enums file))
       = ["found second"; "found first"]
    /\ ~ tiesInDiscoveryOrder Enum_LongName (found_Enums found) (File_Enums file).
Proof.
  eexists. eexists. split; [vm_compute; reflexivity|].
  split; [vm_compute; reflexivity|].
  split; [vm_compute; reflexivity|]. split; [vm_compute; reflexivity|].
  intros Hties. specialize (Hties "B"). vm_compute in Hties. discriminate.
Qed.

(** ** The scalar table *)

(** C9, as the program has it. When the scalar table cannot be fetched
    or decoded, [NewTemplate] prints the error and goes on: the table is
    nil, the files are those any other resource gives, and [NewTemplate]
    returns whenever the parsers do. A table that loads prints nothing:
    this is the only failure the program reports. *)
Theorem makeScalars_soft_failure `{host : Host} (resources : Resources)
    (descs : list FileDescriptor) (err : string) :
  fetchResource "scalars.json" = inl err
  \/ (exists data, fetchResource "scalars.json" = inr data
                   /\ json_Unmarshal data = inl err) ->
  makeScalars = (None, [err])
  /\ NewTemplate descs
     = (files ← mapM NewTemplate_file descs;
        Some ({| Files := files; Scalars := None |}, [err]))
  /\ (forall other : Resources,
        (fun r => Files (fst r)) <$> NewTemplate (resources := other) descs
        = (fun r => Files (fst r)) <$> NewTemplate descs
        /\ (forall data scalars,
              fetchResource (Resources := other) "scalars.json" = inr data ->
              json_Unmarshal (Resources := other) data = inr scalars ->
              NewTemplate (resources := other) descs
              = (files ← mapM NewTemplate_file descs;
                 Some ({| Files := files; Scalars := scalars |}, []))))
  /\ (is_Some (NewTemplate descs) <-> is_Some (mapM NewTemplate_file descs)).
Proof.
  intros Hfail.
  assert (Hscalars : makeScalars = (None, [err])).
  { unfold makeScalars. destruct Hfail as [-> | (data & -> & ->)]; reflexivity. }
  assert (Hnew : forall r : Resources,
             NewTemplate (resources := r) descs
             = (files ← mapM NewTemplate_file descs;
                Some ({| Files := files;
                         Scalars := fst (makeScalars (resources := r)) |},
                      snd (makeScalars (resources := r))))).
  { intros r. unfold NewTemplate. rewrite appendEachM_mapM.
    destruct (mapM NewTemplate_file descs) as [files|]; simpl; [|done].
    by destruct (makeScalars (resources := r)). }
  split; [done|]. split; [by rewrite Hnew, Hscalars|]. split.
  - intros other. split.
    + rewrite !Hnew. by destruct (mapM NewTemplate_file descs).
    + intros data scalars Hfetch Hdecode. rewrite Hnew.
      unfold makeScalars. by rewrite Hfetch, Hdecode.
  - rewrite Hnew. destruct (mapM NewTemplate_file descs); simpl.
    + split; eauto.
    + split; intros [? ?]; done.
Qed.

Lemma makeScalars_soft_failure_witness :
  NewTemplate (host := exampleHost) (resources := missingResources) [nestedFile]
  = (files ← mapM (NewTemplate_file (host := exampleHost)) [nestedFile];
     Some ({| Files := files; Scalars := None |},
           ["open resources/scalars.json: file does not exist"]))
  /\ is_Some (NewTemplate (host := exampleHost) (resources := missingResources)
                [nestedFile]).
Proof.
  pose proof (makeScalars_soft_failure (host := exampleHost) missingResources
                [nestedFile] "open resources/scalars.json: file does not exist"
                (or_introl eq_refl)) as (_ & Hnew & _ & Hsome).
  split; [exact Hnew|].
  apply Hsome. vm_compute. eauto.
Defined.

(** C9 fails as stated: the scalar table is not the only failure the
    program lives with. When [json.Indent] rejects a fenced block,
    [IndentJson] keeps the block as it is and goes on, and nothing is
    printed: [NewTemplate] returns the files with the block unindented. *)
Lemma rejected_json_tolerated :
  (forall (host : Host) (s : string), json_Indent s = None -> IndentJson s = s)
  /\ @json_Indent exampleHost "not json" = None
  /\ description (host := exampleHost) "// See```jsonnot json```"
     = "See```json" +:+ regexp.newline +:+ "not json```"
  /\ exists tpl,
       NewTemplate (host := exampleHost) (resources := emptyTableResources)
         [badFenceFile] = Some (tpl, [])
       /\ map Message_Description (flat_map File_Messages (Files tpl))
          = ["See```json" +:+ regexp.newline +:+ "not json```"].
Proof.
  split; [|split; [|split]].
  - intros host s Hs. unfold IndentJson. by rewrite Hs.
  - reflexivity.
  - vm_compute. reflexivity.
  - eexists. split; vm_compute; reflexivity.
Qed.

(** ** The description cleaner *)

Section IndexLemmas.
Implicit Types s t : string.

Lemma Index_range s t : -1 <= strings.Index s t <= Z.of_nat (String.length s).
Proof.
  induction s as [|c s IH]; rewrite Index_unfold.
  - destruct (strings.HasPrefix "" t); simpl; lia.
  - destruct (strings.HasPrefix (String c s) t); [simpl; lia|].
    destruct (Z.ltb_spec (strings.Index s t) 0); simpl String.length; lia.
Qed.

Lemma Index_empty t : strings.Index "" t <= 0.
Proof. rewrite Index_unfold. destruct (strings.HasPrefix "" t); lia. Qed.

(** The text splits at the index found. *)
Lemma Index_split s t :
  0 <= strings.Index s t ->
  s = strings.take (Z.to_nat (strings.Index s t)) s +:+ t
      +:+ strings.drop (Z.to_nat (strings.Index s t + Z.of_nat (String.length t))) s.
Proof.
  induction s as [|c s IH]; rewrite Index_unfold.
  - destruct (strings.HasPrefix "" t) eqn:Hp; [|lia]. intros _.
    rewrite Z.add_0_l, Nat2Z.id. simpl strings.take.
    rewrite append_nil_l. by apply HasPrefix_true.
  - destruct (strings.HasPrefix (String c s) t) eqn:Hp.
    + intros _. rewrite Z.add_0_l, Nat2Z.id. simpl strings.take.
      rewrite append_nil_l. by apply HasPrefix_true.
    + destruct (Z.ltb_spec (strings.Index s t) 0) as [|Hi]; [lia|]. intros _.
      replace (Z.to_nat (strings.Index s t + 1))
        with (S (Z.to_nat (strings.Index s t))) by lia.
      replace (Z.to_nat (strings.Index s t + 1 + Z.of_nat (String.length t)))
        with (S (Z.to_nat (strings.Index s t + Z.of_nat (String.length t)))) by lia.
      simpl. rewrite append_cons. f_equal. by apply IH.
Qed.

Lemma length_take_Index s t :
  0 <= strings.Index s t ->
  String.length (strings.take (Z.to_nat (strings.Index s t)) s)
  = Z.to_nat (strings.Index s t).
Proof.
  intros H. apply length_take. pose proof (Index_range s t). lia.
Qed.
End IndexLemmas.

Section Cleaner.
Context {host : Host}.
Implicit Types comment res pre rest : string.

Lemma append_inj_length (p p' x x' : string) :
  p +:+ x = p' +:+ x' -> String.length p = String.length p' ->
  p = p' /\ x = x'.
Proof.
  intros Heq Hlen. split.
  - rewrite <- (take_append p x), <- (take_append p' x'). by rewrite Heq, Hlen.
  - rewrite <- (drop_append p x), <- (drop_append p' x'). by rewrite Heq, Hlen.
Qed.

Lemma indentLoop_unfold fuel beginTag endTag res comment :
  indentLoop (S fuel) beginTag endTag res comment
  = let startIdx := strings.Index comment beginTag in
    if 0 <? startIdx then
      let rest :=
        strings.drop (Z.to_nat (startIdx + Z.of_nat (String.length beginTag))) comment in
      let endIdx := strings.Index rest endTag in
      if endIdx =? -1 then Unclosed
      else indentLoop fuel beginTag endTag
             ((((res +:+ strings.take (Z.to_nat startIdx) comment) +:+ beginTag)
               +:+ (regexp.newline +:+ IndentJson (strings.take (Z.to_nat endIdx) rest)))
              +:+ endTag)
             (strings.drop (Z.to_nat (endIdx + Z.of_nat (String.length endTag))) rest)
    else Done res comment.
Proof. reflexivity. Qed.

(** The loop against its description, for any text it has the fuel for. *)
Lemma indentLoop_Reindented beginTag endTag fuel res comment :
  (String.length comment <= fuel)%nat ->
  exists out,
    Reindented beginTag endTag comment out
    /\ match out with
       | Some new =>
           exists res' rest,
             indentLoop fuel beginTag endTag res comment = Done res' rest
             /\ res' +:+ rest = res +:+ new
       | None => indentLoop fuel beginTag endTag res comment = Unclosed
       end.
Proof.
  revert res comment. induction fuel as [|fuel IH]; intros res comment Hlen.
  - destruct comment; [|simpl in Hlen; lia].
    exists (Some ""). pose proof (Index_empty beginTag) as Hi.
    split; [by constructor|]. exists res, "".
    change (indentLoop 0 beginTag endTag res "")
      with (if 0 <? strings.Index "" beginTag then OutOfFuel else Done res "").
    destruct (Z.ltb_spec 0 (strings.Index "" beginTag)); [lia|done].
  - rewrite indentLoop_unfold. cbv zeta.
    destruct (Z.ltb_spec 0 (strings.Index comment beginTag)) as [Hpos|Hneg].
    2:{ exists (Some comment). split; [by constructor|]. by exists res, comment. }
    pose proof (Index_split comment beginTag ltac:(lia)) as Hc.
    pose proof (length_take_Index comment beginTag ltac:(lia)) as Hpre.
    remember (strings.take (Z.to_nat (strings.Index comment beginTag)) comment)
      as pre eqn:Epre.
    remember (strings.drop
                (Z.to_nat (strings.Index comment beginTag
                           + Z.of_nat (String.length beginTag))) comment)
      as rest eqn:Erest.
    assert (Hne : pre <> "") by (intros ->; simpl in Hpre; lia).
    assert (Hrest : (String.length rest < String.length comment)%nat).
    { rewrite Hc. rewrite !length_append. destruct pre; [done|simpl; lia]. }
    destruct (Z.eqb_spec (strings.Index rest endTag) (-1)) as [Hend|Hend].
    + exists None. split; [|done]. rewrite Hc. constructor; [|done|done].
      rewrite <- Hc. lia.
    + pose proof (Index_range rest endTag) as Hrange.
      pose proof (Index_split rest endTag ltac:(lia)) as Hr.
      pose proof (length_take_Index rest endTag ltac:(lia)) as Hjson.
      remember (strings.take (Z.to_nat (strings.Index rest endTag)) rest)
        as jsonStr eqn:Ejson.
      remember (strings.drop
                  (Z.to_nat (strings.Index rest endTag
                             + Z.of_nat (String.length endTag))) rest)
        as rest' eqn:Erest'.
      assert (Hlen' : (String.length rest' <= fuel)%nat).
      { assert (String.length rest' <= String.length rest)%nat; [|lia].
        rewrite Hr. rewrite !length_append. lia. }
      destruct (IH ((((res +:+ pre) +:+ beginTag)
                     +:+ (regexp.newline +:+ IndentJson jsonStr)) +:+ endTag)
                  rest' Hlen') as (out & Hout & Hloop).
      exists ((fun tail => pre +:+ beginTag +:+ regexp.newline
                           +:+ IndentJson jsonStr +:+ endTag +:+ tail) <$> out).
      split.
      * rewrite Hc, Hr. constructor; [|done| |done].
        -- rewrite <- Hr, <- Hc. lia.
        -- rewrite <- Hr. lia.
      * destruct out as [new|]; simpl; [|done].
        destruct Hloop as (res' & rest'' & -> & Heq).
        exists res', rest''. split; [done|].
        by rewrite Heq, !append_assoc.
Qed.

Lemma Reindented_deterministic beginTag endTag comment out1 out2 :
  Reindented beginTag endTag comment out1 ->
  Reindented beginTag endTag comment out2 ->
  out1 = out2.
Proof.
  intros H1. revert out2.
  induction H1 as [comment Hi | pre rest Hi Hne Hend
                   | pre jsonStr rest out Hi Hne Hend Hrest IH];
    intros out2 H2.
  - inversion H2 as [c Hi' | pre' rest' Hi' Hne' Hend' Hc
                     | pre' js' rest' out' Hi' Hne' Hend' Hrest' Hc]; subst.
    + done.
    + rewrite Hi' in Hi. destruct pre'; [done|simpl in Hi; lia].
    + rewrite Hi' in Hi. destruct pre'; [done|simpl in Hi; lia].
  - inversion H2 as [c Hi' | pre' rest' Hi' Hne' Hend' Hc
                     | pre' js' rest' out' Hi' Hne' Hend' Hrest' Hc]; subst.
    + rewrite Hi in Hi'. destruct pre; [done|simpl in Hi'; lia].
    + done.
    + rewrite Hc, Hi in Hi'.
      destruct (append_inj_length _ _ _ _ Hc ltac:(lia)) as [-> Hx].
      apply String.app_inj in Hx. subst rest. lia.
  - inversion H2 as [c Hi' | pre' rest' Hi' Hne' Hend' Hc
                     | pre' js' rest' out' Hi' Hne' Hend' Hrest' Hc]; subst.
    + rewrite Hi in Hi'. destruct pre; [done|simpl in Hi'; lia].
    + rewrite Hc, Hi in Hi'.
      destruct (append_inj_length _ _ _ _ Hc ltac:(lia)) as [-> Hx].
      apply String.app_inj in Hx. subst rest'. lia.
    + rewrite Hc, Hi in Hi'.
      destruct (append_inj_length _ _ _ _ Hc ltac:(lia)) as [-> Hx].
      apply String.app_inj in Hx. rewrite Hx, Hend in Hend'.
      destruct (append_inj_length _ _ _ _ Hx ltac:(lia)) as [-> Hy].
      apply String.app_inj in Hy. subst rest'.
      by rewrite (IH _ Hrest').
Qed.

Lemma IndentJsonInComment_Reindented beginTag endTag comment :
  exists out,
    Reindented beginTag endTag comment out
    /\ IndentJsonInComment comment beginTag endTag = default comment out.
Proof.
  destruct (indentLoop_Reindented beginTag endTag (String.length comment) ""
              comment (le_n _)) as (out & Hout & Hloop).
  exists out. split; [done|]. unfold IndentJsonInComment.
  destruct out as [new|]; simpl.
  - destruct Hloop as (res' & rest & -> & Heq).
    rewrite append_nil_l in Heq. subst new.
    destruct (String.eqb_spec res' "") as [->|]; done.
  - by rewrite Hloop.
Qed.

Lemma TrimLeft_spec s cutset :
  exists lead,
    s = lead +:+ strings.TrimLeft s cutset
    /\ Forall (fun c => strings.mem c cutset = true) (list_ascii_of_string lead)
    /\ match strings.TrimLeft s cutset with
       | "" => True
       | String c _ => strings.mem c cutset = false
       end.
Proof.
  induction s as [|c s (lead & Hs & Hlead & Hfirst)]; simpl.
  - by exists "".
  - destruct (strings.mem c cutset) eqn:Hc.
    + exists (String c lead). rewrite append_cons, <- Hs.
      split; [done|]. split; [by constructor|done].
    + exists "". by repeat split.
Qed.
End Cleaner.

(** C10, as the program has it. The cleaner strips the leading '*', '/',
    newline and space characters and then reads the rest block by
    block, as [Reindented] says: while the text still to be read has an
    opening tag that is not at its very start, the text up to the tag
    and the tag are copied, the segment up to the closing tag is
    replaced by a newline and its indented JSON (the segment itself when
    it is not JSON), the closing tag is copied and reading goes on after
    it; the text left when no opening tag follows, or when one stands at
    the very start of what is left, is kept as it is; and when an
    opening tag that is read has no closing tag after it, the stripped
    comment is returned unchanged. *)
Theorem description_reindents `{host : Host} (comment : string) :
  let cutset := "*/" +:+ regexp.newline +:+ " " in
  let val := strings.TrimLeft comment cutset in
  (exists lead,
      comment = lead +:+ val
      /\ Forall (fun c => strings.mem c cutset = true) (list_ascii_of_string lead)
      /\ match val with
         | "" => True
         | String c _ => strings.mem c cutset = false
         end)
  /\ (exists out,
         Reindented "```json" "```" val out
         /\ (forall out', Reindented "```json" "```" val out' -> out' = out)
         /\ description comment = default val out)
  /\ (forall s, IndentJson s = default s (json_Indent s)).
Proof.
  intros cutset val. split; [apply TrimLeft_spec|]. split.
  - destruct (IndentJsonInComment_Reindented "```json" "```" val)
      as (out & Hout & Heq).
    exists out. split; [done|]. split; [|done].
    intros out' Hout'. exact (Reindented_deterministic _ _ _ _ _ Hout' Hout).
  - intros s. unfold IndentJson. by destruct (json_Indent s).
Qed.

(** C10 fails as stated: a fenced block whose opening tag comes right
    after the closing tag of the block before it is not re-indented, and
    an unclosed opening tag in that place does not undo the blocks
    already done. *)
Lemma fence_after_fence_kept_verbatim :
  description (host := exampleHost) adjacentFences
  = "See```json" +:+ regexp.newline +:+ default "" (exampleIndent exampleJson)
    +:+ "``````json" +:+ exampleJson +:+ "```"
  /\ description_claimed (host := exampleHost) adjacentFences
     = "See```json" +:+ regexp.newline +:+ default "" (exampleIndent exampleJson)
       +:+ "``````json" +:+ regexp.newline +:+ default "" (exampleIndent exampleJson)
       +:+ "```"
  /\ description (host := exampleHost) adjacentFences
     <> description_claimed (host := exampleHost) adjacentFences
  /\ description (host := exampleHost) adjacentUnclosedFence
     = "a```json" +:+ regexp.newline +:+ "x``````jsony"
  /\ description_claimed (host := exampleHost) adjacentUnclosedFence
     = adjacentUnclosedFence.
Proof.
  split; [vm_compute; reflexivity|]. split; [vm_compute; reflexivity|].
  split; [vm_compute; discriminate|].
  split; vm_compute; reflexivity.
Qed.

(** The same with any [json.Indent]: the second of two adjacent blocks
    gets no newline, whatever the first and the second are indented to. *)
Lemma fence_after_fence_any_host (host : Host) :
  description "a```jsonx``````jsony```"
  <> description_claimed "a```jsonx``````jsony```".
Proof.
  destruct host as [P T indent srt]. vm_compute.
  set (jx := match indent "x" with Some x => x | None => "x" end).
  set (jy := match indent "y" with Some y => y | None => "y" end).
  intros H. repeat (injection H as H).
  assert (H' : (jx +:+ "```") +:+ "```jsony```"
               = (((jx +:+ "```") +:+ "```json")
                  +:+ String (ascii_of_nat 10) (jy +:+ "```")) +:+ "")
    by exact H.
  rewrite !append_assoc in H'. apply String.app_inj in H'.
  vm_compute in H'. discriminate.
Qed.

(** * Further properties *)

(** ** Option names and children with an option *)

Section QueryProofs.
Context {host : Host} {contract : SortContract host}.
Context {A : Type} (options : A -> option (gmap string (value Payload))).
Implicit Types (children : list A) (name : string).

Lemma leb_ne_ltb (a b : string) :
  String.leb a b = true -> a <> b -> String.ltb a b = true.
Proof.
  unfold String.leb, String.ltb. intros Hle Hne.
  destruct (String.compare a b) eqn:Hc; [|done|done].
  by apply String.compare_eq_iff in Hc.
Qed.

Lemma optionSet_fold (optionSet : gset string) (m : gmap string (value Payload)) :
  map_fold (fun option (_ : value Payload) optionSet => {[option]} ∪ optionSet)
           optionSet m
  = optionSet ∪ dom m.
Proof.
  apply (map_fold_weak_ind (fun r m' => r = optionSet ∪ dom m')).
  - rewrite dom_empty_L. symmetry. apply (right_id_L ∅ (∪)).
  - intros k v m' r _ ->. rewrite dom_insert_L.
    apply set_eq. intros x. rewrite !elem_of_union. tauto.
Qed.

Lemma elem_of_optionSetOf children name :
  name ∈ optionSetOf options children
  <-> exists child, child ∈ children /\ is_Some (mapIndex (options child) name).
Proof.
  unfold optionSetOf.
  assert (Hgen : forall acc : gset string,
             name ∈ foldl (fun optionSet child =>
                             map_fold (fun option (_ : value Payload) optionSet =>
                                         {[option]} ∪ optionSet)
                                      optionSet (default ∅ (options child)))
                          acc children
             <-> name ∈ acc
                 \/ exists child, child ∈ children
                                  /\ is_Some (mapIndex (options child) name)).
  { induction children as [|x xs IH]; intros acc; simpl.
    - split; [auto|]. intros [H|(c & Hc & _)]; [done|]. by apply elem_of_nil in Hc.
    - rewrite IH, optionSet_fold, elem_of_union, elem_of_dom.
      assert (Hx : is_Some (default ∅ (options x) !! name)
                   <-> is_Some (mapIndex (options x) name)).
      { unfold mapIndex. destruct (options x); simpl; [done|].
        rewrite lookup_empty. split; intros [? ?]; done. }
      rewrite Hx. split.
      + intros [[H|H]|(c & Hc & Hs)]; [by left| |].
        * right. exists x. split; [by left|done].
        * right. exists c. split; [by right|done].
      + intros [H|(c & Hc & Hs)]; [by left; left|].
        apply elem_of_cons in Hc as [->|Hc]; [by left; right|].
        right. by exists c. }
  rewrite Hgen. split; [|by right]. intros [H|H]; [|done].
  by apply elem_of_empty in H.
Qed.

Lemma sorted_NoDup_strict (l : list string) :
  StronglySorted String.le l -> NoDup l ->
  StronglySorted (fun a b => String.ltb a b = true) l.
Proof.
  induction 1 as [|x xs Hxs IH Hx]; intros Hnodup; constructor.
  - apply IH. by apply NoDup_cons in Hnodup as [_ ?].
  - apply NoDup_cons in Hnodup as [Hnotin _].
    apply Forall_forall. intros y Hy. apply leb_ne_ltb.
    + apply Is_true_true. exact (proj1 (Forall_forall _ _) Hx y Hy).
    + by intros ->.
Qed.

(** However the set is listed, sorting gives the one list that holds
    its names in strictly ascending order. *)
Lemma sorted_names_unique (optionSet : gset string) (listed : list string) :
  listed ≡ₚ elements optionSet ->
  let sorted := sort_Sort string String.ltb listed in
  StronglySorted (fun a b => String.ltb a b = true) sorted
  /\ (forall name, name ∈ sorted <-> name ∈ optionSet)
  /\ sorted = sort_Sort string String.ltb (elements optionSet).
Proof.
  intros Hlisted sorted. subst sorted.
  assert (Hsort : forall l, l ≡ₚ elements optionSet ->
             sort_Sort string String.ltb l ≡ₚ elements optionSet
             /\ StronglySorted String.le (sort_Sort string String.ltb l)).
  { intros l Hl. split; [by rewrite <- (sort_Sort_perm string String.ltb l)|].
    pose proof (sort_Sort_sorted string id l) as Hs.
    change (fun x y => String.ltb (id x) (id y)) with String.ltb in Hs.
    induction Hs as [|x xs _ IH Hx]; constructor; [done|].
    eapply Forall_impl; [exact Hx|]. intros y Hy.
    apply Is_true_true. by apply ltb_false_leb. }
  destruct (Hsort listed Hlisted) as [Hperm Hle].
  destruct (Hsort (elements optionSet) (reflexivity _)) as [Hperm' Hle'].
  assert (Hnodup : NoDup (sort_Sort string String.ltb listed))
    by (rewrite Hperm; apply NoDup_elements).
  split; [|split].
  - by apply sorted_NoDup_strict.
  - intros name. rewrite Hperm. apply elem_of_elements.
  - apply (StronglySorted_unique String.le); [done|done|].
    by rewrite Hperm, Hperm'.
Qed.

Lemma childOptions_spec children :
  match childOptions options children with
  | None =>
      forall child name, child ∈ children -> mapIndex (options child) name = None
  | Some names =>
      names <> []
      /\ StronglySorted (fun a b => String.ltb a b = true) names
      /\ forall name,
           name ∈ names
           <-> exists child, child ∈ children
                             /\ is_Some (mapIndex (options child) name)
  end.
Proof.
  unfold childOptions.
  destruct (decide (size (optionSetOf options children) = 0%nat)) as [Hz|Hnz].
  - apply size_empty_iff in Hz. intros child name Hchild.
    destruct (mapIndex (options child) name) eqn:Hname; [|done].
    assert (name ∈ optionSetOf options children) as Hin
      by (apply elem_of_optionSetOf; eauto).
    rewrite Hz in Hin. by apply elem_of_empty in Hin.
  - destruct (sorted_names_unique (optionSetOf options children)
                (elements (optionSetOf options children)) (reflexivity _))
      as (Hsorted & Hmem & _).
    split; [|split; [done|]].
    + intros Hnil. apply Hnz, size_empty_iff. intros name.
      rewrite <- Hmem, Hnil. split; intros H; [by apply elem_of_nil in H|].
      by apply elem_of_empty in H.
    + intros name. by rewrite Hmem, elem_of_optionSetOf.
Qed.

Lemma childrenWithOption_filter children name :
  childrenWithOption options children name
  = match filter (fun child => is_Some (mapIndex (options child) name)) children with
    | [] => None
    | found => Some found
    end.
Proof.
  unfold childrenWithOption.
  assert (Hgen : forall acc,
             foldl (fun found child =>
                      match mapIndex (options child) name with
                      | Some _ => found ++ [child]
                      | None => found
                      end) acc children
             = acc ++ filter (fun child => is_Some (mapIndex (options child) name))
                             children).
  { induction children as [|x xs IH]; intros acc; simpl.
    - by rewrite app_nil_r.
    - rewrite IH, filter_cons.
      destruct (mapIndex (options x) name) eqn:Hx.
      + rewrite decide_True by eauto. by rewrite <- app_assoc.
      + rewrite decide_False; [done|]. by intros [? ?]. }
  rewrite Hgen. simpl.
  by destruct (filter _ children).
Qed.

Lemma childOptions_childrenWithOption children name :
  (exists names, childOptions options children = Some names /\ name ∈ names)
  <-> is_Some (childrenWithOption options children name).
Proof.
  rewrite childrenWithOption_filter.
  pose proof (childOptions_spec children) as Hspec.
  assert (Hfilter : is_Some
                      match filter (fun child => is_Some (mapIndex (options child) name))
                                   children with
                      | [] => None
                      | found => Some found
                      end
                    <-> exists child, child ∈ children
                                      /\ is_Some (mapIndex (options child) name)).
  { destruct (filter _ children) as [|x l] eqn:Hf.
    - split; [by intros [? ?]|]. intros (child & Hin & Hs).
      assert (child ∈ filter (fun child => is_Some (mapIndex (options child) name))
                             children) as Hc by (by apply list_elem_of_filter).
      rewrite Hf in Hc. by apply elem_of_nil in Hc.
    - split; [|eauto]. intros _. exists x.
      assert (x ∈ filter (fun child => is_Some (mapIndex (options child) name))
                         children) as Hx by (rewrite Hf; by left).
      apply list_elem_of_filter in Hx as [? ?]. done. }
  rewrite Hfilter.
  destruct (childOptions options children) as [names|].
  - destruct Hspec as (_ & _ & Hmem). rewrite <- Hmem.
    split; [by intros (? & [= <-] & ?)|eauto].
  - split; [by intros (? & ? & ?)|].
    intros (child & Hin & [v Hv]). by rewrite (Hspec child name Hin) in Hv.
Qed.
End QueryProofs.

(** X1. [FieldOptions], [ValueOptions] and [MethodOptions] return nil
    when no child has an option, and otherwise the names of the options
    that some child has, each once, in strictly ascending byte order. *)
Theorem option_names_listed `{host : Host} `{!SortContract host} :
  (forall m : Message,
      namesOfOptions MessageField_Option (Message_Fields m) (Message_FieldOptions m))
  /\ (forall e : Enum,
        namesOfOptions EnumValue_Option (Enum_Values e) (Enum_ValueOptions e))
  /\ (forall s : Service,
        namesOfOptions ServiceMethod_Option (Service_Methods s)
                       (Service_MethodOptions s)).
Proof.
  split; [|split]; intros x.
  - exact (childOptions_spec MessageField_Options (Message_Fields x)).
  - exact (childOptions_spec EnumValue_Options (Enum_Values x)).
  - exact (childOptions_spec ServiceMethod_Options (Service_Methods x)).
Qed.

Lemma option_names_listed_witness :
  Message_FieldOptions (host := exampleHost) optionedMessage
  = Some ["deprecated"; "owner"]
  /\ namesOfOptions MessageField_Option (Message_Fields optionedMessage)
                    (Message_FieldOptions (host := exampleHost) optionedMessage).
Proof.
  split; [vm_compute; reflexivity|].
  exact (proj1 (option_names_listed (host := exampleHost)
                  (SortContract0 := exampleHost_SortContract)) optionedMessage).
Defined.

(** X2. [FieldsWithOption], [ValuesWithOption] and [MethodsWithOption]
    return the children that have the option, in the order they have in
    the entity, and nil rather than an empty list when there is none. *)
Theorem children_with_option `{host : Host} (name : string) :
  (forall m : Message,
      Message_FieldsWithOption m name
      = havingOption MessageField_Option (Message_Fields m) name)
  /\ (forall e : Enum,
        Enum_ValuesWithOption e name
        = havingOption EnumValue_Option (Enum_Values e) name)
  /\ (forall s : Service,
        Service_MethodsWithOption s name
        = havingOption ServiceMethod_Option (Service_Methods s) name).
Proof.
  split; [|split]; intros x; apply childrenWithOption_filter.
Qed.

(** X3. A name is in the list of [FieldOptions] exactly when
    [FieldsWithOption] for that name is not nil; the same for the values
    of an enum and the methods of a service. *)
Theorem option_names_match_children `{host : Host} `{!SortContract host}
    (name : string) :
  (forall m : Message,
      (exists names, Message_FieldOptions m = Some names /\ name ∈ names)
      <-> is_Some (Message_FieldsWithOption m name))
  /\ (forall e : Enum,
        (exists names, Enum_ValueOptions e = Some names /\ name ∈ names)
        <-> is_Some (Enum_ValuesWithOption e name))
  /\ (forall s : Service,
        (exists names, Service_MethodOptions s = Some names /\ name ∈ names)
        <-> is_Some (Service_MethodsWithOption s name)).
Proof.
  split; [|split]; intros x; apply childOptions_childrenWithOption.
Qed.

Lemma option_names_match_children_witness :
  (map MessageField_Name <$>
     Message_FieldsWithOption (host := exampleHost) optionedMessage "deprecated")
  = Some ["reg_number"; "id"]
  /\ ((exists names,
          Message_FieldOptions (host := exampleHost) optionedMessage = Some names
          /\ "deprecated" ∈ names)
      <-> is_Some (Message_FieldsWithOption (host := exampleHost)
                     optionedMessage "deprecated")).
Proof.
  split; [vm_compute; reflexivity|].
  exact (proj1 (option_names_match_children (host := exampleHost)
                  (SortContract0 := exampleHost_SortContract) "deprecated")
           optionedMessage).
Defined.

(** ** Declared options and extension options *)

Section OptionProofs.
Context {host : Host}.

Lemma mapIndex_mergeOptions (opts : list (gmap string (value Payload))) name :
  mapIndex (mergeOptions opts) name = firstValue name opts.
Proof.
  pose proof (mergeOptions_lookup opts) as H. unfold mapIndex.
  destruct (mergeOptions opts) as [out|]; simpl.
  - by destruct H as [-> _].
  - by rewrite H.
Qed.

Lemma merged_declaredFirst declared (ext : gmap string (value Payload)) name :
  mapIndex (mergeOptions [extractOptions declared; extensions_Transform ext]) name
  = declaredFirst declared ext name.
Proof.
  rewrite mapIndex_mergeOptions. unfold declaredFirst, extractOptions. simpl.
  destruct declared as [dep | [[dep [lvl|]]|]]; simpl; try destruct dep; simpl;
    repeat case_decide; subst;
    repeat match goal with
           | H : _ /\ _ |- _ => destruct H
           | H : ~ (_ /\ _) |- _ =>
               apply not_and_l in H; destruct H as [H|H]; [|done]
           end;
    subst; simplify_map_eq; try done;
    destruct (extensions_Transform ext !! name); done.
Qed.
End OptionProofs.

(** X4. On every entity the parsers build, [Option(name)] gives the
    declared value when the descriptor declares one ([true] under
    "deprecated" for a deprecated descriptor, the level's name under
    "idempotency_level" for a method that sets one) and otherwise what
    the extension options give for the name: a declared option is never
    overridden by an extension of the same name. *)
Theorem declared_options_first `{host : Host} (name : string) :
  (forall val,
      EnumValue_Option (parseEnum_value val) name
      = declaredFirst (OtherOptions (evd_Deprecated val)) (evd_OptionExtensions val) name)
  /\ (forall pe,
        Enum_Option (parseEnum pe) name
        = declaredFirst (OtherOptions (ed_Deprecated pe)) (ed_OptionExtensions pe) name)
  /\ (forall pf oneofDecls m,
        parseMessageField pf oneofDecls = Some m ->
        MessageField_Option m name
        = declaredFirst (OtherOptions (fp_Deprecated (fd_Proto pf)))
                        (fp_OptionExtensions (fd_Proto pf)) name)
  /\ (forall pm m,
        parseMessage pm = Some m ->
        Message_Option m name
        = declaredFirst (OtherOptions (md_Deprecated pm)) (md_OptionExtensions pm) name)
  /\ (forall pm,
        ServiceMethod_Option (parseServiceMethod pm) name
        = declaredFirst (MethodOpts (mtd_Options pm)) (mtd_OptionExtensions pm) name)
  /\ (forall ps,
        Service_Option (parseService ps) name
        = declaredFirst (OtherOptions (sd_Deprecated ps)) (sd_OptionExtensions ps) name)
  /\ (forall f file,
        NewTemplate_file f = Some file ->
        File_Option file name
        = declaredFirst (OtherOptions (file_Deprecated f)) (file_OptionExtensions f) name).
Proof.
  repeat apply conj.
  - intros val. by rewrite <- merged_declaredFirst.
  - intros pe. unfold parseEnum. destruct (Exclude _). by rewrite <- merged_declaredFirst.
  - intros pf oneofDecls m. unfold parseMessageField.
    destruct (parseType pf) as [[t lt] ft].
    destruct (match fp_OneofIndex (fd_Proto pf) with
              | Some i => index oneofDecls i
              | None => Some ""
              end); simpl; [|done].
    intros [= <-]. by rewrite <- merged_declaredFirst.
  - intros pm m. unfold parseMessage. destruct (Exclude _).
    destruct (appendEachM _ _ _); simpl; [|done].
    intros [= <-]. by rewrite <- merged_declaredFirst.
  - intros pm. unfold parseServiceMethod.
    destruct (Action _), (Version _), (Title _), (Exclude _).
    by rewrite <- merged_declaredFirst.
  - intros ps. unfold parseService. destruct (Title _), (Exclude _).
    by rewrite <- merged_declaredFirst.
  - intros f file. unfold NewTemplate_file.
    destruct (discover f); simpl; [|done].
    intros [= <-]. by rewrite <- merged_declaredFirst.
Qed.

Lemma declared_options_first_witness :
  let m := parseServiceMethod (host := exampleHost) deprecatedMethod in
  ServiceMethod_Option m "deprecated" = Some (VBool true)
  /\ ServiceMethod_Option m "idempotency_level" = Some (VString "IDEMPOTENT")
  /\ ServiceMethod_Option m "owner" = Some (VString "x")
  /\ ServiceMethod_Option m "retries" = None
  /\ ServiceMethod_Option m "deprecated"
     = declaredFirst (host := exampleHost) (MethodOpts (mtd_Options deprecatedMethod))
                     (mtd_OptionExtensions deprecatedMethod) "deprecated".
Proof.
  do 4 (split; [vm_compute; reflexivity|]).
  exact (proj1 (proj2 (proj2 (proj2 (proj2
           (declared_options_first (host := exampleHost) "deprecated")))))
           deprecatedMethod).
Defined.

(** ** Panics and presence flags *)

Section FlagProofs.
Context {host : Host}.

Lemma length_pos_nonempty {A} (l : list A) : (0 <? length l)%nat = true <-> l <> [].
Proof.
  destruct l; simpl; split; done.
Qed.

Lemma Permutation_nonempty {A} (l k : list A) : l ≡ₚ k -> (l <> [] <-> k <> []).
Proof.
  intros H. apply Permutation_length in H.
  destruct l, k; simpl in H; try done.
Qed.

Lemma parseMessageField_is_Some pf oneofDecls :
  is_Some (parseMessageField pf oneofDecls)
  <-> match fp_OneofIndex (fd_Proto pf) with
      | Some i => 0 <= i < Z.of_nat (length oneofDecls)
      | None => True
      end.
Proof.
  split; [|apply parseMessageField_total].
  unfold parseMessageField. destruct (parseType pf) as [[t lt] ft].
  destruct (fp_OneofIndex (fd_Proto pf)) as [i|]; [|done].
  unfold index. destruct (Z.ltb_spec i 0) as [Hneg|Hpos]; simpl.
  - by intros [? ?].
  - destruct (oneofDecls !! Z.to_nat i) as [decl|] eqn:Hdecl; simpl.
    + intros _. apply lookup_lt_Some in Hdecl. lia.
    + by intros [? ?].
Qed.

Lemma parseMessage_is_Some pm : is_Some (parseMessage pm) <-> oneofsDeclared pm.
Proof.
  split; [|apply parseMessage_total].
  unfold parseMessage, oneofsDeclared. destruct (Exclude _) as [e d].
  rewrite appendEachM_mapM.
  destruct (mapM _ (md_Fields pm)) as [fields|] eqn:Hfields; simpl.
  - intros _. assert (is_Some (mapM (fun f => parseMessageField f (md_OneofDecl pm))
                                      (md_Fields pm))) as Hs by eauto.
    apply mapM_is_Some in Hs. eapply Forall_impl; [exact Hs|].
    intros pf Hpf. by apply parseMessageField_is_Some.
  - by intros [? ?].
Qed.

Lemma NewTemplate_file_is_Some f :
  is_Some (NewTemplate_file f) <-> Forall oneofsDeclared (messagesOf f).
Proof.
  split; [|apply NewTemplate_file_total].
  unfold NewTemplate_file. rewrite discover_spec.
  destruct (mapM parseMessage (messagesOf f)) as [recs|] eqn:Hrecs; simpl.
  - intros _. assert (is_Some (mapM parseMessage (messagesOf f))) as Hs by eauto.
    apply mapM_is_Some in Hs. eapply Forall_impl; [exact Hs|].
    intros pm Hpm. by apply parseMessage_is_Some.
  - by intros [? ?].
Qed.
End FlagProofs.

(** X5. [parseMessageField] panics exactly when the field names a oneof
    index that is negative or beyond the oneofs the message declares.
    When it returns, [IsOneof] says whether the field has a oneof index,
    and [OneofDecl] is the name declared at that index, or empty for a
    field outside any oneof. *)
Theorem parseMessageField_oneof `{host : Host} pf oneofDecls :
  (is_Some (parseMessageField pf oneofDecls)
   <-> match fp_OneofIndex (fd_Proto pf) with
       | Some i => 0 <= i < Z.of_nat (length oneofDecls)
       | None => True
       end)
  /\ (forall m,
        parseMessageField pf oneofDecls = Some m ->
        match fp_OneofIndex (fd_Proto pf) with
        | Some i => MessageField_IsOneof m = true
                    /\ oneofDecls !! Z.to_nat i = Some (MessageField_OneofDecl m)
        | None => MessageField_IsOneof m = false /\ MessageField_OneofDecl m = ""
        end).
Proof.
  split; [apply parseMessageField_is_Some|].
  intros m. unfold parseMessageField. destruct (parseType pf) as [[t lt] ft].
  destruct (fp_OneofIndex (fd_Proto pf)) as [i|]; simpl.
  - unfold index. destruct (Z.ltb_spec i 0); simpl; [done|].
    destruct (oneofDecls !! Z.to_nat i) as [decl|]; simpl; [|done].
    intros [= <-]. by simpl.
  - intros [= <-]. by simpl.
Qed.

Lemma parseMessageField_oneof_witness :
  (MessageField_OneofDecl <$>
     parseMessageField (host := exampleHost) (oneofField "cat_name" (Some 1))
                       ["travel"; "drivers"]) = Some "drivers"
  /\ parseMessageField (host := exampleHost) (oneofField "cat_name" (Some 2))
                       ["travel"; "drivers"] = None
  /\ parseMessageField (host := exampleHost) (oneofField "cat_name" (Some (-1)))
                       ["travel"; "drivers"] = None
  /\ (is_Some (parseMessageField (host := exampleHost)
                 (oneofField "cat_name" (Some 1)) ["travel"; "drivers"])
      <-> 0 <= 1 < Z.of_nat (length ["travel"; "drivers"])).
Proof.
  do 3 (split; [vm_compute; reflexivity|]).
  exact (proj1 (parseMessageField_oneof (host := exampleHost)
                  (oneofField "cat_name" (Some 1)) ["travel"; "drivers"])).
Defined.

(** X6. [NewTemplate] panics exactly when some field of some message, at
    any depth of nesting, names a oneof its message does not declare;
    nothing else in the descriptors and no failure of the scalar table
    stops it. *)
Theorem NewTemplate_panics_iff `{host : Host} `{resources : Resources}
    (descs : list FileDescriptor) :
  NewTemplate descs = None
  <-> exists f m pf i,
        f ∈ descs /\ m ∈ messagesOf f /\ pf ∈ md_Fields m
        /\ fp_OneofIndex (fd_Proto pf) = Some i
        /\ ~ 0 <= i < Z.of_nat (length (md_OneofDecl m)).
Proof.
  assert (Hsome : is_Some (NewTemplate descs)
                  <-> Forall (fun f => Forall oneofsDeclared (messagesOf f)) descs).
  { split; [|apply NewTemplate_total].
    unfold NewTemplate. rewrite appendEachM_mapM.
    destruct (mapM NewTemplate_file descs) as [files|] eqn:Hfiles; simpl.
    - intros _. assert (is_Some (mapM NewTemplate_file descs)) as Hs by eauto.
      apply mapM_is_Some in Hs. eapply Forall_impl; [exact Hs|].
      intros f Hf. by apply NewTemplate_file_is_Some.
    - by intros [? ?]. }
  rewrite eq_None_not_Some, Hsome. split.
  - intros Hnot. apply not_Forall_Exists in Hnot; [|intros f; apply Forall_dec;
      intros m; apply Forall_dec; intros pf;
      destruct (fp_OneofIndex (fd_Proto pf)); [apply _|by left]].
    apply Exists_exists in Hnot as (f & Hf & Hnot).
    apply not_Forall_Exists in Hnot; [|intros m; apply Forall_dec; intros pf;
      destruct (fp_OneofIndex (fd_Proto pf)); [apply _|by left]].
    apply Exists_exists in Hnot as (m & Hm & Hnot).
    apply not_Forall_Exists in Hnot; [|intros pf;
      destruct (fp_OneofIndex (fd_Proto pf)); [apply _|by left]].
    apply Exists_exists in Hnot as (pf & Hpf & Hnot).
    simpl in Hnot.
    destruct (fp_OneofIndex (fd_Proto pf)) as [i|] eqn:Hi; [|by destruct Hnot].
    exists f, m, pf, i. by repeat split.
  - intros (f & m & pf & i & Hf & Hm & Hpf & Hi & Hrange) Hall.
    apply Hrange.
    pose proof (proj1 (Forall_forall _ _) Hall f Hf) as Hmsgs.
    pose proof (proj1 (Forall_forall _ _) Hmsgs m Hm) as Hfields.
    pose proof (proj1 (Forall_forall _ _) Hfields pf Hpf) as Hfield.
    simpl in Hfield. by rewrite Hi in Hfield.
Qed.

Section FlagTheorems.
Context {host : Host}.

Lemma messagesOf_nonempty f : messagesOf f <> [] <-> file_Messages f <> [].
Proof.
  unfold messagesOf. destruct (file_Messages f) as [|m ms]; simpl; [done|].
  destruct m; simpl. split; done.
Qed.

Lemma enumsOf_nonempty f :
  enumsOf f <> []
  <-> file_Enums f <> [] \/ exists m, m ∈ messagesOf f /\ md_Enums m <> [].
Proof.
  unfold enumsOf. split.
  - intros Hne. destruct (file_Enums f) as [|e es]; [|by left]. right.
    simpl in Hne. destruct (flat_map md_Enums (messagesOf f)) as [|e es] eqn:He;
      [done|].
    assert (In e (flat_map md_Enums (messagesOf f))) as Hin by (rewrite He; by left).
    apply in_flat_map in Hin as (m & Hm & Hem). exists m.
    split; [by apply list_elem_of_In|]. intros Hnil. by rewrite Hnil in Hem.
  - intros [Hne|(m & Hm & Hne)] Hnil; apply app_eq_nil in Hnil as [Htop Hnested];
      [done|].
    destruct (md_Enums m) as [|e es] eqn:He; [done|].
    assert (In e (flat_map md_Enums (messagesOf f))) as Hin.
    { apply in_flat_map. exists m. split; [by apply list_elem_of_In|].
      rewrite He. by left. }
    by rewrite Hnested in Hin.
Qed.
End FlagTheorems.

(** X7. In a [File], [HasExtensions], [HasMessages] and [HasServices]
    say whether the collection of that name is non-empty. [HasEnums]
    says whether the file has a top-level enum, while [Enums] also holds
    the enums declared inside messages: a file whose enums are all
    nested has [HasEnums] false and [Enums] non-empty. *)
Theorem file_presence_flags `{host : Host} `{!SortContract host} f file :
  NewTemplate_file f = Some file ->
  (File_HasExtensions file = true <-> File_Extensions file <> [])
  /\ (File_HasMessages file = true <-> File_Messages file <> [])
  /\ (File_HasServices file = true <-> File_Services file <> [])
  /\ (File_HasEnums file = true <-> file_Enums f <> [])
  /\ (File_Enums file <> []
      <-> file_Enums f <> [] \/ exists m, m ∈ messagesOf f /\ md_Enums m <> []).
Proof.
  unfold NewTemplate_file. rewrite discover_spec.
  destruct (mapM parseMessage (messagesOf f)) as [recs|] eqn:Hrecs; simpl; [|done].
  intros [= <-]. simpl.
  pose proof (fun A less l => Permutation_nonempty _ _ (sort_Sort_perm A less l))
    as Hsorted.
  rewrite !length_pos_nonempty, <- !Hsorted.
  assert (Hmap : forall {A B} (g : A -> B) (l : list A), map g l <> [] <-> l <> []).
  { intros A B g l. by destruct l. }
  rewrite !Hmap, <- enumsOf_nonempty.
  repeat split; try done.
  - intros Hne. apply length_mapM in Hrecs. intros ->.
    apply messagesOf_nonempty in Hne. by destruct (messagesOf f).
  - intros Hne. apply length_mapM in Hrecs. apply messagesOf_nonempty.
    intros Hnil. rewrite Hnil in Hrecs. by destruct recs.
Qed.

Lemma file_presence_flags_witness :
  exists file,
    NewTemplate_file (host := exampleHost) nestedEnumFile = Some file
    /\ File_HasEnums file = false
    /\ map Enum_LongName (File_Enums file) = ["Manufacturer.Category"]
    /\ (File_Enums file <> []
        <-> file_Enums nestedEnumFile <> []
            \/ exists m, m ∈ messagesOf nestedEnumFile /\ md_Enums m <> []).
Proof.
  eexists. split; [vm_compute; reflexivity|]. do 2 (split; [reflexivity|]).
  refine (proj2 (proj2 (proj2 (proj2
            (file_presence_flags (host := exampleHost)
               (SortContract0 := exampleHost_SortContract) nestedEnumFile _ _))))).
  vm_compute. reflexivity.
Defined.

(** X8. In a [Message] that [parseMessage] returns, [HasFields] and
    [HasExtensions] say whether [Fields] and [Extensions] are non-empty,
    there is one field record for each field of the descriptor, and
    [HasOneofs] says whether the message declares a oneof; a field with
    [IsOneof] set is found only in a message with [HasOneofs] set, and
    its [OneofDecl] is one of the oneofs declared. *)
Theorem message_presence_flags `{host : Host} pm m :
  parseMessage pm = Some m ->
  (Message_HasFields m = true <-> Message_Fields m <> [])
  /\ (Message_HasExtensions m = true <-> Message_Extensions m <> [])
  /\ (Message_HasOneofs m = true <-> md_OneofDecl pm <> [])
  /\ length (Message_Fields m) = length (md_Fields pm)
  /\ (forall field,
        field ∈ Message_Fields m -> MessageField_IsOneof field = true ->
        Message_HasOneofs m = true
        /\ MessageField_OneofDecl field ∈ md_OneofDecl pm).
Proof.
  intros Hm. destruct (parseMessage_Fields pm m Hm) as [Hfields Hexts].
  assert (Hflags : Message_HasFields m = (0 <? length (md_Fields pm))%nat
                   /\ Message_HasExtensions m = (0 <? length (md_Extensions pm))%nat
                   /\ Message_HasOneofs m = (0 <? length (md_OneofDecl pm))%nat).
  { revert Hm. unfold parseMessage. destruct (Exclude _).
    destruct (appendEachM _ _ _); simpl; [|done]. by intros [= <-]. }
  destruct Hflags as (-> & -> & ->).
  pose proof (length_mapM _ _ _ Hfields) as Hlen.
  rewrite !length_pos_nonempty, Hexts.
  split; [|split; [|split; [done|split; [done|]]]].
  - destruct (md_Fields pm), (Message_Fields m); done.
  - by destruct (md_Extensions pm).
  - intros field Hfield Hoff.
    apply mapM_Some in Hfields.
    apply list_elem_of_lookup in Hfield as [k Hk].
    destruct (Forall2_lookup_r _ _ _ _ _ Hfields Hk) as (pf & _ & Hpf).
    pose proof (proj2 (parseMessageField_oneof pf (md_OneofDecl pm)) field Hpf)
      as Honeof.
    destruct (fp_OneofIndex (fd_Proto pf)) as [i|].
    + destruct Honeof as [_ Hdecl].
      assert (MessageField_OneofDecl field ∈ md_OneofDecl pm) as Hin
        by (by eapply list_elem_of_lookup_2).
      split; [|done]. apply length_pos_nonempty. intros Hnil.
      rewrite Hnil in Hin. by apply elem_of_nil in Hin.
    + destruct Honeof as [Hno _]. congruence.
Qed.

Lemma message_presence_flags_witness :
  exists m,
    parseMessage (host := exampleHost) oneofMessage = Some m
    /\ map (fun f => (MessageField_Name f, MessageField_OneofDecl f)) (Message_Fields m)
       = [("id", ""); ("kilometers", "travel"); ("cat_name", "drivers")]
    /\ Message_HasOneofs m = true
    /\ length (Message_Fields m) = length (md_Fields oneofMessage).
Proof.
  eexists. split; [vm_compute; reflexivity|]. do 2 (split; [reflexivity|]).
  refine (proj1 (proj2 (proj2 (proj2
            (message_presence_flags (host := exampleHost) oneofMessage _ _))))).
  vm_compute. reflexivity.
Defined.

(** X9. [NewTemplate] returns one [File] for each descriptor, in the
    order of the descriptors (the files are not sorted), each with the
    name and the package of its descriptor and the cleaned syntax
    comment as description. *)
Theorem NewTemplate_files_in_order `{host : Host} `{resources : Resources}
    descs tpl printed :
  NewTemplate descs = Some (tpl, printed) ->
  map File_Name (Files tpl) = map file_Name descs
  /\ map File_Package (Files tpl) = map file_Package descs
  /\ map File_Description (Files tpl)
     = map (fun f => description (file_SyntaxComments f)) descs.
Proof.
  unfold NewTemplate. rewrite appendEachM_mapM.
  destruct (mapM NewTemplate_file descs) as [files|] eqn:Hfiles; simpl; [|done].
  destruct makeScalars as [scalars out]. intros [= <- _]. simpl.
  apply mapM_Some in Hfiles.
  induction Hfiles as [|f file descs files Hfile _ IH]; simpl; [done|].
  destruct IH as (-> & -> & ->).
  revert Hfile. unfold NewTemplate_file.
  destruct (discover f); simpl; [|done]. by intros [= <-].
Qed.

Lemma NewTemplate_files_in_order_witness :
  exists tpl,
    NewTemplate (host := exampleHost) (resources := emptyTableResources)
                [tiedFile; nestedFile; nestedEnumFile] = Some (tpl, [])
    /\ map File_Name (Files tpl)
       = ["tied.proto"; "nested.proto"; "manufacturer.proto"].
Proof.
  eexists. split; [vm_compute; reflexivity|].
  refine (proj1 (NewTemplate_files_in_order (host := exampleHost)
                   (resources := emptyTableResources)
                   [tiedFile; nestedFile; nestedEnumFile] _ [] _)).
  vm_compute. reflexivity.
Defined.

(** ** Base names *)

Section BaseName.
Implicit Types s cur q name : string.

Lemma HasPrefix_dot c s :
  strings.HasPrefix (String c s) "." = Ascii.eqb c ".".
Proof. simpl. by rewrite HasPrefix_nil, andb_true_r. Qed.

Lemma Contains_dot_cons c s :
  strings.Contains (String c s) "." = Ascii.eqb c "." || strings.Contains s ".".
Proof.
  unfold strings.Contains. rewrite (Index_unfold (String c s)), HasPrefix_dot.
  destruct (Ascii.eqb c "."); [done|]. simpl.
  destruct (Z.ltb_spec (strings.Index s ".") 0) as [Hneg|Hpos].
  - symmetry. apply Z.leb_gt. lia.
  - transitivity true; [apply Z.leb_le; lia|symmetry; apply Z.leb_le; lia].
Qed.

Lemma Contains_dot_append s t :
  strings.Contains (s +:+ t) "."
  = strings.Contains s "." || strings.Contains t ".".
Proof.
  induction s as [|c s IH].
  - rewrite append_nil_l. reflexivity.
  - by rewrite append_cons, !Contains_dot_cons, IH, orb_assoc.
Qed.

Lemma HasSuffix_append s t : strings.HasSuffix (s +:+ t) t = true.
Proof. unfold strings.HasSuffix. rewrite rev_append. apply HasPrefix_append. Qed.

Lemma split_go_dot_cons cur c s :
  strings.split_go "." 0 cur (String c s)
  = if Ascii.eqb c "." then cur :: strings.split_go "." 0 "" s
    else strings.split_go "." 0 (cur +:+ String c "") s.
Proof.
  change (strings.split_go "." 0 cur (String c s))
    with (if strings.HasPrefix (String c s) "."
          then cur :: strings.split_go "." 0 "" s
          else strings.split_go "." 0 (cur +:+ String c "") s).
  by rewrite HasPrefix_dot.
Qed.

Lemma split_go_nonempty cur s : strings.split_go "." 0 cur s <> [].
Proof.
  revert cur. induction s as [|c s IH]; intros cur; [done|].
  rewrite split_go_dot_cons. destruct (Ascii.eqb c "."); [done|apply IH].
Qed.

(** The last part is what follows the last dot. *)
Lemma last_split_go cur s :
  strings.Contains cur "." = false ->
  exists q b,
    last (strings.split_go "." 0 cur s) = Some b
    /\ cur +:+ s = q +:+ b
    /\ (q = "" \/ strings.HasSuffix q "." = true)
    /\ strings.Contains b "." = false.
Proof.
  revert cur. induction s as [|c s IH]; intros cur Hcur.
  - exists "", cur. rewrite append_nil_r, append_nil_l. repeat split; auto.
  - rewrite split_go_dot_cons. destruct (Ascii.eqb_spec c ".") as [->|Hc].
    + destruct (IH "" eq_refl) as (q & b & Hlast & Hs & Hq & Hb).
      exists (cur +:+ "." +:+ q), b. split; [|split; [|split; [|done]]].
      * rewrite last_cons, Hlast. done.
      * rewrite append_nil_l in Hs. by rewrite Hs, !append_assoc.
      * right. destruct Hq as [->|Hq].
        -- rewrite append_nil_r. apply HasSuffix_append.
        -- apply HasSuffix_true in Hq as [r ->].
           rewrite <- !append_assoc. apply HasSuffix_append.
    + destruct (IH (cur +:+ String c "")) as (q & b & Hlast & Hs & Hq & Hb).
      { rewrite Contains_dot_append, Hcur, Contains_dot_cons.
        by destruct (Ascii.eqb_spec c "."). }
      exists q, b. split; [done|]. split; [|done].
      by rewrite <- Hs, append_assoc.
Qed.

Lemma baseName_last name :
  last (strings.Split name ".") = Some (baseName name).
Proof.
  unfold baseName. rewrite last_lookup.
  replace (Init.Nat.pred (length (strings.Split name ".")))
    with (length (strings.Split name ".") - 1)%nat by lia.
  destruct (strings.Split name "." !! _) eqn:Hl; [done|].
  apply lookup_ge_None in Hl.
  pose proof (split_go_nonempty "" name) as Hne. unfold strings.Split in *.
  destruct (strings.split_go "." 0 "" name); [done|simpl in Hl; lia].
Qed.

Lemma last_split_go_after_dot cur s t :
  last (strings.split_go "." 0 cur (s +:+ "." +:+ t))
  = last (strings.split_go "." 0 "" t).
Proof.
  revert cur. induction s as [|c s IH]; intros cur.
  - rewrite append_nil_l.
    change ("." +:+ t) with (String "." t).
    rewrite split_go_dot_cons. simpl.
    pose proof (split_go_nonempty "" t).
    by destruct (strings.split_go "." 0 "" t).
  - rewrite append_cons, split_go_dot_cons.
    destruct (Ascii.eqb c "."); [|apply IH].
    rewrite <- (IH ""). pose proof (split_go_nonempty "" (s +:+ "." +:+ t)).
    by destruct (strings.split_go "." 0 "" (s +:+ "." +:+ t)).
Qed.

Lemma baseName_after_dot s t : baseName (s +:+ "." +:+ t) = baseName t.
Proof.
  pose proof (baseName_last (s +:+ "." +:+ t)) as H1.
  pose proof (baseName_last t) as H2.
  unfold strings.Split in *. rewrite last_split_go_after_dot in H1. congruence.
Qed.

Lemma baseName_TrimPrefix_dot name :
  baseName (strings.TrimPrefix name ".") = baseName name.
Proof.
  destruct (strings.HasPrefix name ".") eqn:Hp.
  - rewrite (TrimPrefix_true _ _ Hp) at 2.
    change ("." +:+ strings.TrimPrefix name ".")
      with ("" +:+ "." +:+ strings.TrimPrefix name ".").
    by rewrite baseName_after_dot.
  - by rewrite TrimPrefix_false.
Qed.

Lemma baseName_TrimPrefix_package name P :
  baseName (strings.TrimPrefix name (P +:+ ".")) = baseName name.
Proof.
  destruct (strings.HasPrefix name (P +:+ ".")) eqn:Hp.
  - rewrite (TrimPrefix_true _ _ Hp) at 2.
    by rewrite append_assoc, baseName_after_dot.
  - by rewrite TrimPrefix_false.
Qed.
End BaseName.

(** X10. [baseName] returns what follows the last dot of a name: the
    name is a qualifier, empty or ending in a dot, followed by the base
    name, and the base name holds no dot. A name without a dot is its
    own base name, and an empty name has an empty one. *)
Theorem baseName_last_segment (name : string) :
  (exists qualifier,
      name = qualifier +:+ baseName name
      /\ (qualifier = "" \/ strings.HasSuffix qualifier "." = true))
  /\ strings.Contains (baseName name) "." = false
  /\ (strings.Contains name "." = false -> baseName name = name)
  /\ (forall qualifier, baseName (qualifier +:+ "." +:+ name) = baseName name).
Proof.
  destruct (last_split_go "" name eq_refl) as (q & b & Hlast & Hs & Hq & Hb).
  pose proof (baseName_last name) as Hbase. unfold strings.Split in Hbase.
  rewrite Hlast in Hbase. injection Hbase as ->.
  rewrite append_nil_l in Hs.
  split; [by exists q|]. split; [done|]. split; [|intros; apply baseName_after_dot].
  intros Hname. destruct Hq as [->|Hq]; [by rewrite Hs at 2|].
  apply HasSuffix_true in Hq as [r ->].
  rewrite Hs, !Contains_dot_append in Hname.
  change (strings.Contains "." ".") with true in Hname.
  by rewrite orb_true_r in Hname.
Qed.

(** X11. The three type names [parseType] returns agree: the short name
    is the last dot-separated segment of the long name and of the full
    name and holds no dot, the long name is an end of the full name, and
    the short name is an end of the long name. *)
Theorem parseType_names_agree (T : Type) `{typeContainer T} (tc : T) :
  let '(short, long, full) := parseType tc in
  short = baseName long
  /\ short = baseName full
  /\ strings.Contains short "." = false
  /\ strings.HasSuffix full long = true
  /\ strings.HasSuffix long short = true.
Proof.
  unfold parseType. destruct (strings.HasPrefix (GetTypeName tc) ".").
  - set (full := strings.TrimPrefix (GetTypeName tc) ".").
    set (P := GetPackage tc).
    destruct (baseName_last_segment full) as (_ & Hnodot & _).
    destruct (baseName_last_segment (strings.TrimPrefix full (P +:+ ".")))
      as ((q & Hq & _) & _).
    rewrite baseName_TrimPrefix_package in Hq.
    split; [by rewrite baseName_TrimPrefix_package|]. split; [done|].
    split; [done|]. split.
    + destruct (strings.HasPrefix full (P +:+ ".")) eqn:Hp.
      * rewrite (TrimPrefix_true _ _ Hp) at 1. apply HasSuffix_append.
      * rewrite TrimPrefix_false by done.
        rewrite <- (append_nil_l full) at 1. apply HasSuffix_append.
    + rewrite Hq at 1. apply HasSuffix_append.
  - destruct (GetType tc); vm_compute; done.
Qed.

(** X12. For a method's request and response types and for the type an
    extension extends, the short name is the last segment of the long
    name and of the full name and holds no dot; and the containing type
    of an extension follows the rule of the method types: the full name
    is the extendee without its leading dot, and the long name is the
    extendee without [.P.] when it starts with it, so that then full =
    P + "." + long, and the extendee unchanged otherwise. *)
Theorem reference_names_agree `{host : Host} :
  (forall pm : MethodDescriptor,
      let m := parseServiceMethod pm in
      ServiceMethod_RequestType m = baseName (ServiceMethod_RequestLongType m)
      /\ ServiceMethod_RequestType m = baseName (ServiceMethod_RequestFullType m)
      /\ strings.Contains (ServiceMethod_RequestType m) "." = false
      /\ ServiceMethod_ResponseType m = baseName (ServiceMethod_ResponseLongType m)
      /\ ServiceMethod_ResponseType m = baseName (ServiceMethod_ResponseFullType m)
      /\ strings.Contains (ServiceMethod_ResponseType m) "." = false)
  /\ (forall pe : ExtensionDescriptor,
        let x := parseFileExtension pe in
        let P := fp_Package (xd_Proto pe) in
        let extendee := fp_Extendee (xd_Proto pe) in
        FileExtension_ContainingType x = baseName (FileExtension_ContainingLongType x)
        /\ FileExtension_ContainingType x
           = baseName (FileExtension_ContainingFullType x)
        /\ strings.Contains (FileExtension_ContainingType x) "." = false
        /\ FileExtension_ContainingFullType x = strings.TrimPrefix extendee "."
        /\ (strings.HasPrefix extendee ("." +:+ P +:+ ".") = true ->
            FileExtension_ContainingFullType x
            = P +:+ "." +:+ FileExtension_ContainingLongType x)
        /\ (strings.HasPrefix extendee ("." +:+ P +:+ ".") = false ->
            FileExtension_ContainingLongType x = extendee)).
Proof.
  assert (Hnames : forall ref P,
             baseName ref = baseName (strings.TrimPrefix ref ("." +:+ P +:+ "."))
             /\ baseName ref = baseName (strings.TrimPrefix ref ".")
             /\ strings.Contains (baseName ref) "." = false).
  { intros ref P. split; [|split].
    - change ("." +:+ P +:+ ".") with (("." +:+ P) +:+ ".").
      by rewrite baseName_TrimPrefix_package.
    - by rewrite baseName_TrimPrefix_dot.
    - apply baseName_last_segment. }
  split.
  - intros pm m. subst m. unfold parseServiceMethod.
    destruct (Action _), (Version _), (Title _), (Exclude _). simpl.
    destruct (Hnames (mtd_InputType pm) (mtd_Package pm)) as (? & ? & ?).
    destruct (Hnames (mtd_OutputType pm) (mtd_Package pm)) as (? & ? & ?).
    done.
  - intros pe x P extendee. subst x. unfold parseFileExtension.
    destruct (parseType pe) as [[t lt] ft]. simpl.
    destruct (Hnames extendee P) as (? & ? & ?).
    destruct (TrimPrefix_dot_package extendee P) as [? ?].
    done.
Qed.

(** ** Removing tags *)

Section Replace.
Implicit Types s old tag line cur : string.

Lemma Index_neg_cons c s old :
  strings.Index (String c s) old < 0 ->
  strings.HasPrefix (String c s) old = false /\ strings.Index s old < 0.
Proof.
  rewrite Index_unfold. destruct (strings.HasPrefix (String c s) old); [lia|].
  destruct (Z.ltb_spec (strings.Index s old) 0); [done|lia].
Qed.

Lemma Index_nonneg_cons c s old :
  0 <= strings.Index (String c s) old ->
  strings.HasPrefix (String c s) old = true
  \/ strings.HasPrefix (String c s) old = false /\ 0 <= strings.Index s old.
Proof.
  rewrite Index_unfold. destruct (strings.HasPrefix (String c s) old); [by left|].
  destruct (Z.ltb_spec (strings.Index s old) 0); [lia|by right].
Qed.

Lemma Contains_false s old : strings.Contains s old = false <-> strings.Index s old < 0.
Proof. unfold strings.Contains. apply Z.leb_gt. Qed.

Lemma Contains_true s old : strings.Contains s old = true <-> 0 <= strings.Index s old.
Proof. unfold strings.Contains. apply Z.leb_le. Qed.

(** Nothing to replace: the text is returned as it is. *)
Lemma ReplaceAll_absent s old new :
  strings.Contains s old = false -> strings.ReplaceAll s old new = s.
Proof.
  rewrite Contains_false. unfold strings.ReplaceAll.
  induction s as [|c s IH]; [done|]. intros [Hp Hi]%Index_neg_cons.
  change (strings.replace_go old new 0 (String c s))
    with (if strings.HasPrefix (String c s) old
          then new +:+ strings.replace_go old new (String.length old - 1) s
          else String c (strings.replace_go old new 0 s)).
  by rewrite Hp, IH.
Qed.

Lemma length_replace_go old skip s :
  (String.length (strings.replace_go old "" skip s) <= String.length s - skip)%nat.
Proof.
  revert skip. induction s as [|c s IH]; intros skip; [simpl; lia|].
  destruct skip as [|k].
  - change (strings.replace_go old "" 0 (String c s))
      with (if strings.HasPrefix (String c s) old
            then "" +:+ strings.replace_go old "" (String.length old - 1) s
            else String c (strings.replace_go old "" 0 s)).
    destruct (strings.HasPrefix (String c s) old).
    + rewrite append_nil_l. specialize (IH (String.length old - 1)%nat).
      simpl. lia.
    + specialize (IH 0%nat). simpl. lia.
  - specialize (IH k). simpl. lia.
Qed.

(** Removing a text never makes the whole longer, and makes it shorter
    by at least the length of that text when it occurs. *)
Lemma length_ReplaceAll s old :
  (String.length (strings.ReplaceAll s old "") <= String.length s)%nat.
Proof.
  unfold strings.ReplaceAll. pose proof (length_replace_go old 0 s). lia.
Qed.

Lemma length_ReplaceAll_present s old :
  old <> "" -> strings.Contains s old = true ->
  (String.length (strings.ReplaceAll s old "") + String.length old
   <= String.length s)%nat.
Proof.
  intros Hold. rewrite Contains_true. unfold strings.ReplaceAll.
  induction s as [|c s IH].
  - rewrite Index_unfold. destruct old; [done|]. simpl. lia.
  - intros Hi.
    change (strings.replace_go old "" 0 (String c s))
      with (if strings.HasPrefix (String c s) old
            then "" +:+ strings.replace_go old "" (String.length old - 1) s
            else String c (strings.replace_go old "" 0 s)).
    destruct (Index_nonneg_cons _ _ _ Hi) as [Hp|[Hp Hi']]; rewrite Hp.
    + rewrite append_nil_l.
      pose proof (length_replace_go old (String.length old - 1) s) as Hlen.
      apply HasPrefix_true in Hp. apply (f_equal String.length) in Hp.
      rewrite length_append in Hp. simpl in Hp |- *.
      destruct old; [done|]. simpl in *. lia.
    + specialize (IH Hi'). simpl. lia.
Qed.

Lemma split_go_newline_cons cur c s :
  strings.split_go regexp.newline 0 cur (String c s)
  = if Ascii.eqb c (ascii_of_nat 10)
    then cur :: strings.split_go regexp.newline 0 "" s
    else strings.split_go regexp.newline 0 (cur +:+ String c "") s.
Proof.
  change (strings.split_go regexp.newline 0 cur (String c s))
    with (if strings.HasPrefix (String c s) regexp.newline
          then cur :: strings.split_go regexp.newline 0 "" s
          else strings.split_go regexp.newline 0 (cur +:+ String c "") s).
  unfold regexp.newline. simpl strings.HasPrefix.
  by rewrite HasPrefix_nil, andb_true_r.
Qed.

(** Every line is a part of the text. *)
Lemma split_go_newline_part cur s line :
  line ∈ strings.split_go regexp.newline 0 cur s ->
  exists before after, cur +:+ s = before +:+ line +:+ after.
Proof.
  revert cur. induction s as [|c s IH]; intros cur.
  - intros ->%list_elem_of_singleton. exists "", "".
    by rewrite append_nil_l.
  - rewrite split_go_newline_cons. destruct (Ascii.eqb c (ascii_of_nat 10)).
    + intros [->|Hin]%elem_of_cons.
      * exists "", (String c s). by rewrite append_nil_l.
      * destruct (IH "" Hin) as (before & after & Hs).
        rewrite append_nil_l in Hs.
        exists (cur +:+ String c before), after.
        rewrite append_assoc, append_cons. by rewrite <- Hs.
    + intros Hin. destruct (IH _ Hin) as (before & after & Hs).
      exists before, after. by rewrite <- Hs, append_assoc.
Qed.

(** A text without the tag has no match of the tag's pattern. *)
Lemma FindAllString_absent tag s :
  strings.Contains s tag = false ->
  regexp.FindAllString (regexp.TagLine tag) s = [].
Proof.
  intros Habsent. unfold regexp.FindAllString, strings.Split.
  assert (Hlines : forall line,
             line ∈ strings.split_go regexp.newline 0 "" s ->
             regexp.matchLine tag line = None).
  { intros line Hline. unfold regexp.matchLine.
    destruct (Z.ltb_spec (strings.Index line tag) 0) as [|Hfound]; [done|].
    destruct (split_go_newline_part _ _ _ Hline) as (before & after & Hs).
    rewrite append_nil_l in Hs.
    rewrite (Index_split line tag Hfound), !append_assoc in Hs.
    rewrite <- append_assoc in Hs.
    apply Contains_false in Habsent. rewrite Hs in Habsent.
    pose proof (Index_found
                  (before +:+ strings.take (Z.to_nat (strings.Index line tag)) line)
                  tag
                  (strings.drop (Z.to_nat (strings.Index line tag
                                           + Z.of_nat (String.length tag))) line
                   +:+ after)).
    lia. }
  induction (strings.split_go regexp.newline 0 "" s) as [|line lines IH];
    [done|].
  simpl. rewrite Hlines by (by left). apply IH.
  intros l Hl. apply Hlines. by right.
Qed.
End Replace.

(** ** Directives on any text *)

(** X13. On a description that holds none of the tags "@exclude",
    "@title", "@action" and "@version", a new directive answers [false]
    and three empty strings and keeps the description as it is; a method
    with such a comment gets no title, action or version, is not
    excluded, and has the cleaned comment as its description. *)
Theorem directives_absent `{host : Host} (desc : string) :
  strings.Contains desc "@exclude" = false ->
  strings.Contains desc "@title" = false ->
  strings.Contains desc "@action" = false ->
  strings.Contains desc "@version" = false ->
  let d := newDirective desc in
  Exclude d = (false, d) /\ Title d = ("", d)
  /\ Action d = ("", d) /\ Version d = ("", d)
  /\ (forall pm,
        description (mtd_Comments pm) = desc ->
        let m := parseServiceMethod pm in
        ServiceMethod_Title m = "" /\ ServiceMethod_Action m = ""
        /\ ServiceMethod_Version m = "" /\ ServiceMethod_Exclude m = false
        /\ ServiceMethod_Description m = desc).
Proof.
  intros Hexclude Htitle Haction Hversion d.
  assert (Hscan : forall tag t, strings.Contains desc tag = false ->
             scanTag (regexp.TagLine tag) t desc = ("", desc)).
  { intros tag t Hc. unfold scanTag. by rewrite (FindAllString_absent _ _ Hc). }
  assert (He : Exclude d = (false, d)).
  { unfold Exclude. change (Descrition d) with desc. by rewrite Hexclude. }
  assert (Ht : Title d = ("", d)).
  { unfold Title. change (title d) with "". change (Descrition d) with desc.
    unfold titleRegex. by rewrite (Hscan _ _ Htitle). }
  assert (Ha : Action d = ("", d)).
  { unfold Action. change (action d) with "". change (Descrition d) with desc.
    unfold actionRegex. by rewrite (Hscan _ _ Haction). }
  assert (Hv : Version d = ("", d)).
  { unfold Version. change (version d) with "". change (Descrition d) with desc.
    unfold versionRegex. by rewrite (Hscan _ _ Hversion). }
  do 4 (split; [done|]).
  intros pm Hdesc m. subst m. unfold parseServiceMethod. rewrite Hdesc.
  fold d. rewrite Ha, Hv, Ht, He. by simpl.
Qed.

Lemma directives_absent_witness :
  let m := parseServiceMethod (host := exampleHost)
             (exampleMethod "GetModels" "// Returns the set of models."
                            ".com.example.EmptyMessage" ".com.example.Model") in
  ServiceMethod_Title m = "" /\ ServiceMethod_Action m = ""
  /\ ServiceMethod_Version m = "" /\ ServiceMethod_Exclude m = false
  /\ ServiceMethod_Description m = "Returns the set of models.".
Proof.
  refine (proj2 (proj2 (proj2 (proj2
            (directives_absent (host := exampleHost) "Returns the set of models."
               _ _ _ _))))
            (exampleMethod "GetModels" "// Returns the set of models."
                           ".com.example.EmptyMessage" ".com.example.Model") _);
    vm_compute; reflexivity.
Defined.

(** X14. No accessor of a directive adds to the description: after
    [Exclude], [Title], [Action] or [Version] it is at most as long as
    before. [Exclude] answers [true] exactly when the description holds
    "@exclude"; it then takes at least the eight bytes of one tag away,
    and leaves the directive as it is when it answers [false]. *)
Theorem directive_never_grows (acc : accessor) (d : Directive) :
  (String.length (Descrition (after acc d)) <= String.length (Descrition d))%nat
  /\ fst (Exclude d) = strings.Contains (Descrition d) "@exclude"
  /\ (fst (Exclude d) = true ->
      (String.length (Descrition (snd (Exclude d))) + 8
       <= String.length (Descrition d))%nat)
  /\ (fst (Exclude d) = false -> snd (Exclude d) = d).
Proof.
  assert (Hscan : forall re tag desc,
             (String.length (snd (scanTag re tag desc)) <= String.length desc)%nat).
  { intros re tag desc. unfold scanTag.
    destruct (regexp.FindAllString re desc); simpl; [lia|].
    apply length_ReplaceAll. }
  split; [|split; [|split]].
  - destruct acc as [|[| |]]; simpl; unfold Exclude, Title, Action, Version.
    + destruct (strings.Contains (Descrition d) "@exclude"); simpl; [|lia].
      apply length_ReplaceAll.
    + destruct (negb _); simpl; [lia|].
      specialize (Hscan titleRegex "@title" (Descrition d)).
      by destruct (scanTag _ _ _).
    + destruct (negb _); simpl; [lia|].
      specialize (Hscan actionRegex "@action" (Descrition d)).
      by destruct (scanTag _ _ _).
    + destruct (negb _); simpl; [lia|].
      specialize (Hscan versionRegex "@version" (Descrition d)).
      by destruct (scanTag _ _ _).
  - unfold Exclude. by destruct (strings.Contains _ _).
  - unfold Exclude.
    destruct (strings.Contains (Descrition d) "@exclude") eqn:Hc; simpl; [|done].
    intros _. exact (length_ReplaceAll_present _ "@exclude" ltac:(done) Hc).
  - unfold Exclude. by destruct (strings.Contains _ _).
Qed.

(** X15. A field is marked [Required] exactly when its cleaned comment
    holds "@required". Its description is then that comment with every
    "@required" taken out, at least nine bytes shorter; otherwise it is
    the cleaned comment unchanged. *)
Theorem parseMessageField_required `{host : Host} pf oneofDecls m :
  parseMessageField pf oneofDecls = Some m ->
  let desc := description (fp_Comments (fd_Proto pf)) in
  MessageField_Required m = strings.Contains desc "@required"
  /\ MessageField_Description m = strings.ReplaceAll desc "@required" ""
  /\ (MessageField_Required m = false -> MessageField_Description m = desc)
  /\ (MessageField_Required m = true ->
      (String.length (MessageField_Description m) + 9 <= String.length desc)%nat).
Proof.
  unfold parseMessageField. destruct (parseType pf) as [[t lt] ft].
  destruct (match fp_OneofIndex (fd_Proto pf) with
            | Some i => index oneofDecls i
            | None => Some ""
            end); simpl; [|done].
  intros [= <-]. simpl. split; [done|]. split; [done|]. split.
  - apply ReplaceAll_absent.
  - intros Hc. exact (length_ReplaceAll_present _ "@required" ltac:(done) Hc).
Qed.

Lemma parseMessageField_required_witness :
  exists m,
    parseMessageField (host := exampleHost) requiredField [] = Some m
    /\ MessageField_Required m = true
    /\ MessageField_Description m = "The id. "
    /\ (String.length (MessageField_Description m) + 9
        <= String.length (description (host := exampleHost)
                            (fp_Comments (fd_Proto requiredField))))%nat.
Proof.
  eexists. split; [vm_compute; reflexivity|].
  split; [reflexivity|]. split; [reflexivity|].
  refine (proj2 (proj2 (proj2
            (parseMessageField_required (host := exampleHost) requiredField [] _ _))) _).
  - vm_compute. reflexivity.
  - reflexivity.
Defined.

(** ** The start of a cleaned comment *)

Section Leading.
Context {host : Host}.

Lemma get_0_append pre s :
  pre <> "" -> String.get 0 (pre +:+ s) = String.get 0 pre.
Proof. by destruct pre. Qed.

Lemma get_0_empty s : String.get 0 s = None <-> s = "".
Proof. by destruct s. Qed.

Lemma Reindented_head beginTag endTag comment out :
  Reindented beginTag endTag comment out ->
  String.get 0 (default comment out) = String.get 0 comment.
Proof.
  destruct 1 as [comment _ | pre rest _ _ _ | pre jsonStr rest out _ Hpre _ _];
    [done..|].
  destruct out as [tail|]; simpl; [|done].
  by rewrite !get_0_append.
Qed.

Lemma IndentJsonInComment_head comment beginTag endTag :
  String.get 0 (IndentJsonInComment comment beginTag endTag) = String.get 0 comment.
Proof.
  destruct (IndentJsonInComment_Reindented beginTag endTag comment) as (out & Hout & ->).
  by apply Reindented_head with beginTag endTag.
Qed.

Lemma IndentJsonInComment_no_block comment beginTag endTag :
  strings.Index comment beginTag <= 0 ->
  IndentJsonInComment comment beginTag endTag = comment.
Proof.
  intros Hidx. unfold IndentJsonInComment.
  assert (Hloop : forall fuel,
             indentLoop fuel beginTag endTag "" comment = Done "" comment).
  { intros [|fuel]; [simpl|rewrite indentLoop_unfold; simpl];
      by destruct (Z.ltb_spec 0 (strings.Index comment beginTag)); [lia|]. }
  by rewrite Hloop.
Qed.

End Leading.

(** X16. What [description] gives never starts with one of the
    characters it strips ('*', '/', newline, space): it starts with the
    same character as the comment after stripping, and is empty exactly
    when that is empty. When the stripped comment has no "```json", or
    has its first one at the very start, the result is the stripped
    comment itself. *)
Theorem description_start `{host : Host} (comment : string) :
  let cutset := "*/" +:+ regexp.newline +:+ " " in
  let val := strings.TrimLeft comment cutset in
  String.get 0 (description comment) = String.get 0 val
  /\ (forall c, String.get 0 (description comment) = Some c ->
                strings.mem c cutset = false)
  /\ (description comment = "" <-> val = "")
  /\ (strings.Index val "```json" <= 0 -> description comment = val).
Proof.
  intros cutset val.
  assert (Hhead : String.get 0 (description comment) = String.get 0 val)
    by apply IndentJsonInComment_head.
  split; [done|]. split; [|split].
  - intros c. rewrite Hhead.
    destruct (TrimLeft_spec comment cutset) as (_ & _ & _ & Hfirst).
    fold val in Hfirst. destruct val as [|c' val']; [done|].
    by intros [= ->].
  - by rewrite <- !get_0_empty, Hhead.
  - apply IndentJsonInComment_no_block.
Qed.
